(** * hVMC: the single-walker Hubbard-model VMC engine (src/hmodvmc.cpp)

    A shallow embedding of [HubbardModelVMC] over exact real arithmetic:
    [fptype] is read as [R], Eigen matrices and vectors as functions of
    their indices, the Mersenne twister as an abstract generator state that
    every draw threads through, and [assert] as a failure of the call
    (result [None]) in builds where [NDEBUG] is not defined. *)

From Stdlib Require Import Reals Lra Lia ZArith List Bool Arith.
Import ListNotations.

Open Scope R_scope.

(** ** Scalars *)

Definition Rltb (a b : R) : bool := if Rlt_dec a b then true else false.
Definition Rgeb (a b : R) : bool := if Rge_dec a b then true else false.
Definition Reqb (a b : R) : bool := if Req_dec_T a b then true else false.

(** [unsigned int] and [unsigned long int] counters wrap around. *)
Definition wrap32 (z : Z) : Z := (z mod 2 ^ 32)%Z.
Definition wrap64 (z : Z) : Z := (z mod 2 ^ 64)%Z.

(** ** Eigen matrices and vectors

    [A i j] is Eigen's [A(i, j)]; the dimensions travel separately, and
    nothing is said about entries outside of them. *)

Definition Matrix := nat -> nat -> R.
Definition Vector := nat -> R.

(** The sum of [f 0 .. f (n-1)], accumulated from the left as a [for] loop does. *)
Fixpoint sum_upto (n : nat) (f : nat -> R) : R :=
  match n with
  | O => 0
  | S m => sum_upto m f + f m
  end.

(** [A * B] for [A] with [n] columns and [B] with [n] rows. *)
Definition mat_mul (n : nat) (A B : Matrix) : Matrix :=
  fun i j => sum_upto n (fun c => A i c * B c j).

Definition identity : Matrix := fun i j => if Nat.eqb i j then 1 else 0.

Definition mat_eq (rows cols : nat) (A B : Matrix) : Prop :=
  forall i j, (i < rows)%nat -> (j < cols)%nat -> A i j = B i j.

Definition vec_eq (n : nat) (a b : Vector) : Prop :=
  forall i, (i < n)%nat -> a i = b i.

(** [X] is a two-sided inverse of the [n x n] matrix [D]. *)
Definition is_inverse (n : nat) (D X : Matrix) : Prop :=
  mat_eq n n (mat_mul n D X) identity /\ mat_eq n n (mat_mul n X D) identity.

Definition invertible (n : nat) (D : Matrix) : Prop :=
  exists X, is_inverse n D X.

(** ** Lattice *)

(** [get_Xnn s X]: the sites at hopping distance [X] of the spin-orbital [s]. *)
Record Lattice := mkLattice {
  L : nat;
  get_Xnn : nat -> nat -> list nat
}.

(** Modelled from the spec: [Lattice::get_spinup_site] is declared in
    lattice.hpp, which is not part of the sources at hand.  The spin-orbital
    indices [0 .. L-1] are the spin-up orbitals of the sites [0 .. L-1] and
    [L .. 2L-1] the spin-down orbitals of the same sites, as
    [calc_new_T] reads them ([get_site_occ(j) + get_site_occ(j + lat->L)]). *)
Definition get_spinup_site (lat : Lattice) (s : nat) : nat :=
  if (L lat <=? s)%nat then (s - L lat)%nat else s.

(** ** Electron configuration *)

Inductive ElectronOccupation :=
| ELECTRON_OCCUPATION_EMPTY
| ELECTRON_OCCUPATION_FULL.

Definition occ_eqb (a b : ElectronOccupation) : bool :=
  match a, b with
  | ELECTRON_OCCUPATION_EMPTY, ELECTRON_OCCUPATION_EMPTY => true
  | ELECTRON_OCCUPATION_FULL, ELECTRON_OCCUPATION_FULL => true
  | _, _ => false
  end.

(** The enumerators as the integers [calc_new_T] adds up. *)
Definition occ_value (o : ElectronOccupation) : nat :=
  match o with
  | ELECTRON_OCCUPATION_EMPTY => 0
  | ELECTRON_OCCUPATION_FULL => 1
  end.

(** A proposed hop of electron [k] from spin-orbital [k_pos] to [l]. *)
Record ElectronHop := mkHop {
  k : nat;
  l : nat;
  k_pos : nat;
  possible : bool
}.

(** Modelled from the spec: [ElectronConfiguration] (econf.hpp) is not part
    of the sources at hand.  The spec has it assign [N] electrons to the
    [2L] spin-orbitals, give the position of each electron by index, the
    occupation of a spin-orbital, the number of doubly occupied sites, and
    commit an accepted hop. *)
Record ElectronConfiguration := mkEconf {
  electron_pos : list nat
}.

Definition econf_N (e : ElectronConfiguration) : nat :=
  length (electron_pos e).

Definition get_electron_pos (e : ElectronConfiguration) (eid : nat) : nat :=
  nth eid (electron_pos e) O.

Definition get_site_occ (e : ElectronConfiguration) (s : nat)
  : ElectronOccupation :=
  if existsb (Nat.eqb s) (electron_pos e)
  then ELECTRON_OCCUPATION_FULL else ELECTRON_OCCUPATION_EMPTY.

Definition get_num_dblocc (lat : Lattice) (e : ElectronConfiguration) : nat :=
  length (filter
            (fun j => occ_eqb (get_site_occ e j) ELECTRON_OCCUPATION_FULL
                      && occ_eqb (get_site_occ e (j + L lat))
                                 ELECTRON_OCCUPATION_FULL)
            (seq 0 (L lat))).

Fixpoint set_nth (i : nat) (x : nat) (xs : list nat) : list nat :=
  match xs, i with
  | [], _ => []
  | _ :: tl, O => x :: tl
  | y :: tl, S i' => y :: set_nth i' x tl
  end.

(** Electron [k hop] now sits at [l hop]. *)
Definition do_hop (e : ElectronConfiguration) (hop : ElectronHop)
  : ElectronConfiguration :=
  mkEconf (set_nth (k hop) (l hop) (electron_pos e)).

(** What the spec's data model asks of a hop proposal for the configuration
    [e]: it names an electron and its position, targets a spin-orbital of
    the lattice, and is flagged possible only for an empty target. *)
Definition hop_wf (lat : Lattice) (e : ElectronConfiguration)
  (hop : ElectronHop) : Prop :=
  (k hop < econf_N e)%nat /\
  k_pos hop = get_electron_pos e (k hop) /\
  (l hop < 2 * L lat)%nat /\
  (possible hop = true ->
   get_site_occ e (l hop) = ELECTRON_OCCUPATION_EMPTY).

(** The configuration invariant of the spec: every electron on a
    spin-orbital of the lattice, no two on the same one. *)
Definition econf_wf (lat : Lattice) (e : ElectronConfiguration) : Prop :=
  NoDup (electron_pos e) /\
  Forall (fun p => (p < 2 * L lat)%nat) (electron_pos e).

(** ** Early exit on a failed assertion *)

Definition assert (b : bool) : option unit := if b then Some tt else None.

Definition bind {A B : Type} (m : option A) (f : A -> option B) : option B :=
  match m with
  | Some a => f a
  | None => None
  end.

Notation "x <- m ;; f" := (bind m (fun x => f))
  (at level 61, m at next level, right associativity).
Notation "m ;;; f" := (bind m (fun _ => f))
  (at level 61, right associativity).

(** ** Tolerances of the cross-check (lines 206-210 and 247-251) *)

(** The single-precision literals [0.001f], [1.01f], [0.99f], [1.001f] and
    [0.999f] of the source denote these numbers (the nearest [float] to
    each decimal), not the decimals themselves. *)
Definition f32_0_001 : R := 8589935 / 8589934592.
Definition f32_1_01 : R := 4236247 / 4194304.
Definition f32_0_99 : R := 4152361 / 4194304.
Definition f32_1_001 : R := 8396997 / 8388608.
Definition f32_0_999 : R := 16760439 / 16777216.

Definition chk_W (w w_chk : R) : bool :=
  Rltb (Rabs w + Rabs w_chk) f32_0_001
  || (Rltb (w / w_chk) f32_1_01 && Rltb f32_0_99 (w / w_chk)).

Definition chk_T (t t_chk : R) : bool :=
  Rltb (Rabs t + Rabs t_chk) f32_0_001
  || (Rltb (t / t_chk) f32_1_001 && Rltb f32_0_999 (t / t_chk)).

From Stdlib Require Import Permutation.

(** ** The walker *)

Section Walker.

Set Default Proof Using "Type".

(** [std::mt19937]: a generator state; each draw returns the state that
    follows it. *)
Variable RNG : Type.

(** [uniform_real_distribution<fptype>( 0.f, 1.f )( rng )]. *)
Variable uniform_real : RNG -> R * RNG.

(** [ElectronConfiguration::propose_random_hop], [distribute_random] and the
    constructor draw from the walker's generator (econf.cpp is not part of
    the sources at hand); a proposal leaves the configuration as it is. *)
Variable propose_random_hop :
  ElectronConfiguration -> nat -> RNG -> ElectronHop * RNG.
Variable distribute_random :
  ElectronConfiguration -> RNG -> ElectronConfiguration * RNG.
Variable econf_init : Lattice -> nat -> RNG -> ElectronConfiguration * RNG.

(** [Eigen::FullPivLU]: [inverse n D] and [isInvertible n D] of the
    [n x n] matrix [D]. *)
Variable inverse : nat -> Matrix -> Matrix.
Variable isInvertible : nat -> Matrix -> bool.

(** Whether the build defines [NDEBUG] (assertions compiled out). *)
Variable NDEBUG : bool.

(** The constructor's arguments, constant for the life of the walker. *)
Variable lat : Lattice.
Variable M : Matrix.
Variable v : nat -> nat -> R.
Variable N_init : nat.
Variable update_hop_maxdist : nat.
Variable t : list R.
Variable U : R.
Variable updates_until_WT_recalc : Z.

Record HubbardModelVMC := mkVMC {
  rng : RNG;
  econf : ElectronConfiguration;
  W : Matrix;
  T : Vector;
  completed_mcsteps : Z;
  updates_since_WT_recalc : Z
}.

Definition set_rng (st : HubbardModelVMC) (g : RNG) : HubbardModelVMC :=
  mkVMC g (econf st) (W st) (T st)
        (completed_mcsteps st) (updates_since_WT_recalc st).

Definition set_econf (st : HubbardModelVMC) (e : ElectronConfiguration)
  : HubbardModelVMC :=
  mkVMC (rng st) e (W st) (T st)
        (completed_mcsteps st) (updates_since_WT_recalc st).

Definition set_W (st : HubbardModelVMC) (W' : Matrix) : HubbardModelVMC :=
  mkVMC (rng st) (econf st) W' (T st)
        (completed_mcsteps st) (updates_since_WT_recalc st).

Definition set_T (st : HubbardModelVMC) (T' : Vector) : HubbardModelVMC :=
  mkVMC (rng st) (econf st) (W st) T'
        (completed_mcsteps st) (updates_since_WT_recalc st).

Definition set_completed_mcsteps (st : HubbardModelVMC) (c : Z)
  : HubbardModelVMC :=
  mkVMC (rng st) (econf st) (W st) (T st) c (updates_since_WT_recalc st).

Definition set_updates_since_WT_recalc (st : HubbardModelVMC) (c : Z)
  : HubbardModelVMC :=
  mkVMC (rng st) (econf st) (W st) (T st) (completed_mcsteps st) c.

(** Lines 261-273: row [eid] of [D] is the row of [M] at electron [eid]. *)
Definition calc_D (e : ElectronConfiguration) : Matrix :=
  fun eid c => M (get_electron_pos e eid) c.

(** Lines 277-282. *)
Definition calc_new_W (e : ElectronConfiguration) : option Matrix :=
  let D := calc_D e in
  (if NDEBUG then Some tt else assert (isInvertible (econf_N e) D)) ;;;
  Some (mat_mul (econf_N e) M (inverse (econf_N e) D)).

(** Lines 286-294: the outer product of column [k] (scaled) with the
    difference of the rows [l] and [k_pos], entry by entry. *)
Definition calc_updated_W (W0 : Matrix) (hop : ElectronHop) : Matrix :=
  fun i j =>
    W0 i j
    - (W0 i (k hop) / W0 (l hop) (k hop))
      * (W0 (l hop) j - W0 (k_pos hop) j).

(** Lines 298-312. *)
Definition calc_new_T (e : ElectronConfiguration) : Vector :=
  fun i =>
    let sum :=
      fold_left
        (fun sum j =>
           sum + v i j * INR (occ_value (get_site_occ e j)
                              + occ_value (get_site_occ e (j + L lat))))
        (seq 0 (L lat)) 0 in
    exp sum.

(** Lines 316-326. *)
Definition calc_updated_T (T0 : Vector) (hop : ElectronHop) : Vector :=
  fun i =>
    T0 i * exp (v i (get_spinup_site lat (l hop))
                - v i (get_spinup_site lat (k_pos hop))).

(** Lines 204-226: every entry of the updated [W] against the recomputed one. *)
Definition check_W (e : ElectronConfiguration) (W1 W_chk : Matrix) : bool :=
  forallb
    (fun j =>
       forallb (fun i => chk_W (W1 i j) (W_chk i j)) (seq 0 (2 * L lat)))
    (seq 0 (econf_N e)).

(** Lines 246-252. *)
Definition check_T (T1 T_chk : Vector) : bool :=
  forallb (fun i => chk_T (T1 i) (T_chk i)) (seq 0 (L lat)).

(** Lines 164-257.  The walker already holds the configuration after the hop. *)
Definition perform_WT_update (st : HubbardModelVMC) (hop : ElectronHop)
  : option HubbardModelVMC :=
  if (updates_until_WT_recalc <=? updates_since_WT_recalc st)%Z then
    W' <- calc_new_W (econf st) ;;
    let st1 := set_W st W' in
    let st2 := set_T st1 (calc_new_T (econf st1)) in
    Some (set_updates_since_WT_recalc st2 0%Z)
  else
    let st1 := set_W st (calc_updated_W (W st) hop) in
    (if NDEBUG then Some tt
     else W_chk <- calc_new_W (econf st1) ;;
          assert (check_W (econf st1) (W st1) W_chk)) ;;;
    let st2 := set_T st1 (calc_updated_T (T st1) hop) in
    (if NDEBUG then Some tt
     else assert (check_T (T st2) (calc_new_T (econf st2)))) ;;;
    Some (set_updates_since_WT_recalc
            st2 (wrap32 (updates_since_WT_recalc st2 + 1))).

(** Lines 146-149: the accepted branch of [metstep]. *)
Definition accept_hop (st : HubbardModelVMC) (phop : ElectronHop)
  : option (bool * HubbardModelVMC) :=
  let st1 := set_econf st (do_hop (econf st) phop) in
  st2 <- perform_WT_update st1 phop ;;
  Some (true, st2).

(** Lines 125-130. *)
Definition R_j_of (st : HubbardModelVMC) (l_ k_pos_ : nat) : R :=
  T st (get_spinup_site lat l_) / T st (get_spinup_site lat k_pos_)
  * exp (v 0%nat 0%nat - v l_ k_pos_).

Definition accept_prob_of (st : HubbardModelVMC) (phop : ElectronHop) : R :=
  let R_j := R_j_of st (l phop) (k_pos phop) in
  R_j * R_j * W st (l phop) (k phop) * W st (l phop) (k phop).

(** Lines 108-160. *)
Definition metstep (st : HubbardModelVMC) : option (bool * HubbardModelVMC) :=
  let (phop, g1) :=
    propose_random_hop (econf st) update_hop_maxdist (rng st) in
  let st1 := set_rng st g1 in
  if negb (possible phop) then
    Some (false, st1)
  else
    let accept_prob := accept_prob_of st1 phop in
    if Rgeb accept_prob 1 then
      accept_hop st1 phop
    else
      let (u, g2) := uniform_real (rng st1) in
      let st2 := set_rng st1 g2 in
      if Rltb u accept_prob then accept_hop st2 phop
      else Some (false, st2).

(** [n] Metropolis steps in a row. *)
Fixpoint metsteps (n : nat) (st : HubbardModelVMC) : option HubbardModelVMC :=
  match n with
  | O => Some st
  | S n' => r <- metstep st ;; metsteps n' (snd r)
  end.

(** Lines 79-94.  [econf.N()] does not change along the loop. *)
Definition mcs (st : HubbardModelVMC) : option HubbardModelVMC :=
  st1 <- metsteps (econf_N (econf st)) st ;;
  Some (set_completed_mcsteps st1 (wrap64 (completed_mcsteps st1 + 1))).

Fixpoint sweeps (n : nat) (st : HubbardModelVMC) : option HubbardModelVMC :=
  match n with
  | O => Some st
  | S n' => st1 <- mcs st ;; sweeps n' st1
  end.

(** Lines 98-104. *)
Definition equilibrate (N_mcs_equil : nat) (st : HubbardModelVMC)
  : option HubbardModelVMC :=
  st1 <- sweeps N_mcs_equil st ;;
  Some (set_completed_mcsteps
          st1 (wrap64 (completed_mcsteps st1 - Z.of_nat N_mcs_equil))).

(** Line 372. *)
Definition mctime (st : HubbardModelVMC) : Z := completed_mcsteps st.

(** Lines 344-353: the sum over one neighbour shell of [k_pos]. *)
Definition E_l_shell (st : HubbardModelVMC) (k_ k_pos_ X : nat) : R :=
  fold_left
    (fun sum_Xnn l_it =>
       if occ_eqb (get_site_occ (econf st) l_it) ELECTRON_OCCUPATION_EMPTY
       then
         let R_j :=
           T st (get_spinup_site lat l_it)
           / T st (get_spinup_site lat k_pos_)
           * exp (v 0%nat 0%nat - v l_it k_pos_) in
         sum_Xnn + R_j * W st l_it k_
       else sum_Xnn)
    (get_Xnn lat k_pos_ X) 0.

(** Lines 339-356: the shells [X = 1 .. t.size()] of one electron. *)
Definition E_l_shells (st : HubbardModelVMC) (k_ k_pos_ : nat) (E_l_kin : R)
  : R :=
  fold_left
    (fun E X =>
       if Reqb (nth (X - 1) t 0) 0 then E
       else E - nth (X - 1) t 0 * E_l_shell st k_ k_pos_ X)
    (seq 1 (length t)) E_l_kin.

(** Lines 330-368. *)
Definition E_l (st : HubbardModelVMC) : option R :=
  E_l_kin <-
    fold_left
      (fun acc k_ =>
         E <- acc ;;
         let k_pos_ := get_electron_pos (econf st) k_ in
         (if NDEBUG then Some tt
          else assert (occ_eqb (get_site_occ (econf st) k_pos_)
                               ELECTRON_OCCUPATION_FULL)) ;;;
         Some (E_l_shells st k_ k_pos_ E))
      (seq 0 (econf_N (econf st))) (Some 0) ;;
  Some ((E_l_kin + U * INR (get_num_dblocc lat (econf st))) / INR (L lat)).

(** Lines 46-56: resample until [D] is invertible; [fuel] bounds the
    number of resamplings tried. *)
Fixpoint resample (fuel : nat) (e : ElectronConfiguration) (g : RNG)
  : option (ElectronConfiguration * RNG) :=
  match fuel with
  | O => None
  | S fuel' =>
      let (e', g') := distribute_random e g in
      if isInvertible (econf_N e') (calc_D e') then Some (e', g')
      else resample fuel' e' g'
  end.

(** Lines 25-68. *)
Definition construct (fuel : nat) (rng_init : RNG) : option HubbardModelVMC :=
  let (e0, g0) := econf_init lat N_init rng_init in
  r <- (if isInvertible (econf_N e0) (calc_D e0) then Some (e0, g0)
        else resample fuel e0 g0) ;;
  let (e, g) := (r : ElectronConfiguration * RNG) in
  Some (mkVMC g e
              (mat_mul (econf_N e) M (inverse (econf_N e) (calc_D e)))
              (calc_new_T e) 0%Z 0%Z).

(** Lines 146-147 along a list of accepted hops. *)
Fixpoint accept_hops (st : HubbardModelVMC) (hops : list ElectronHop)
  : option HubbardModelVMC :=
  match hops with
  | [] => Some st
  | hop :: rest => r <- accept_hop st hop ;; accept_hops (snd r) rest
  end.

(** Which branch of [perform_WT_update] a call takes (line 166). *)
Definition recalc_due (st : HubbardModelVMC) : bool :=
  (updates_until_WT_recalc <=? updates_since_WT_recalc st)%Z.

(** Every update along [hops] is a quick one. *)
Fixpoint all_quick (st : HubbardModelVMC) (hops : list ElectronHop) : Prop :=
  match hops with
  | [] => True
  | hop :: rest =>
      recalc_due st = false /\
      match accept_hop st hop with
      | Some r => all_quick (snd r) rest
      | None => True
      end
  end.

(** The counter of quick updates stays within the threshold. *)
Definition counter_inv (st : HubbardModelVMC) : Prop :=
  (0 <= updates_since_WT_recalc st <= updates_until_WT_recalc)%Z.

(** The ratio as the spec words it, with the Jastrow table read at the
    physical sites of [l] and [k_pos]. *)
Definition R_j_spec (st : HubbardModelVMC) (l_ k_pos_ : nat) : R :=
  T st (get_spinup_site lat l_) / T st (get_spinup_site lat k_pos_)
  * exp (v 0%nat 0%nat
         - v (get_spinup_site lat l_) (get_spinup_site lat k_pos_)).

(** The kinetic part of the local energy as the spec words it: for each
    electron and each distance class [X] with [t[X-1] <> 0], minus [t[X-1]]
    times the sum of [R_j * W(l,k)] over the empty sites [l] of the class. *)
Definition list_sum (xs : list R) : R := fold_right Rplus 0 xs.

Definition E_kin_spec (st : HubbardModelVMC) : R :=
  list_sum
    (map
       (fun k_ =>
          let k_pos_ := get_electron_pos (econf st) k_ in
          list_sum
            (map
               (fun X =>
                  - nth (X - 1) t 0
                  * list_sum
                      (map (fun l_ => R_j_of st l_ k_pos_ * W st l_ k_)
                           (filter
                              (fun l_ =>
                                 occ_eqb (get_site_occ (econf st) l_)
                                         ELECTRON_OCCUPATION_EMPTY)
                              (get_Xnn lat k_pos_ X))))
               (filter (fun X => negb (Reqb (nth (X - 1) t 0) 0))
                       (seq 1 (length t)))))
       (seq 0 (econf_N (econf st)))).

(** The inverse after row [k_] of [D] has been replaced by [m]: with
    [w = m * Dinv] and [w k_ <> 0], it is
    [Dinv - Dinv(:,k_) * (w - e_k) / w k_]. *)
Definition row_replaced_inverse (Dinv : Matrix) (w : nat -> R) (k_ : nat)
  : Matrix :=
  fun c j => Dinv c j - Dinv c k_ * ((w j - identity k_ j) / w k_).

(** Exact arithmetic makes [FullPivLU] of an invertible [n x n] matrix
    report it invertible and return a two-sided inverse. *)
Definition FullPivLU_exact (n : nat) : Prop :=
  forall D, invertible n D ->
            is_inverse n D (inverse n D) /\ isInvertible n D = true.

(** [W] and [T] are what a recomputation from the configuration gives. *)
Definition WT_consistent (st : HubbardModelVMC) : Prop :=
  let n := econf_N (econf st) in
  econf_wf lat (econf st) /\
  invertible n (calc_D (econf st)) /\
  mat_eq (2 * L lat) n (W st)
         (mat_mul n M (inverse n (calc_D (econf st)))) /\
  vec_eq (L lat) (T st) (calc_new_T (econf st)).

(** A hop the Metropolis step can have accepted: a feasible proposal for
    the configuration at hand whose acceptance probability is not zero (it
    is at least 1, or above a draw from [0,1)). *)
Definition hop_acceptable (st : HubbardModelVMC) (hop : ElectronHop) : Prop :=
  hop_wf lat (econf st) hop /\ possible hop = true /\
  0 < accept_prob_of st hop.

Fixpoint accepted_seq (st : HubbardModelVMC) (hops : list ElectronHop)
  : Prop :=
  match hops with
  | [] => True
  | hop :: rest =>
      hop_acceptable st hop /\
      match accept_hop st hop with
      | Some r => accepted_seq (snd r) rest
      | None => True
      end
  end.

(** The occupation of a spin-orbital as a real number. *)
Definition occ_R (e : ElectronConfiguration) (s : nat) : R :=
  INR (occ_value (get_site_occ e s)).

(** The hop that takes electron [k] back from [l] to [k_pos]. *)
Definition reverse_hop (hop : ElectronHop) : ElectronHop :=
  mkHop (k hop) (k_pos hop) (l hop) true.

(** The row of [W0] at the position of electron [eid] is row [eid] of the
    identity. *)
Definition unit_rows (e : ElectronConfiguration) (W0 : Matrix) : Prop :=
  forall eid j, (eid < econf_N e)%nat -> (j < econf_N e)%nat ->
                W0 (get_electron_pos e eid) j = identity eid j.

(** What exact arithmetic and the collaborators give a walker of [n]
    electrons: an exact [FullPivLU], proposals that are well formed for the
    configuration they are asked for, and acceptance draws that are not
    negative. *)
Definition exact_environment (n : nat) : Prop :=
  FullPivLU_exact n /\
  (forall e g, econf_wf lat e -> econf_N e = n ->
               hop_wf lat e (fst (propose_random_hop e update_hop_maxdist g)))
  /\ (forall g, 0 <= fst (uniform_real g)).

(** The configuration and the generator after [n] resamplings of the
    constructor's loop (lines 48-55), started from [e] and [g]. *)
Fixpoint resampled (n : nat) (e : ElectronConfiguration) (g : RNG)
  : ElectronConfiguration * RNG :=
  match n with
  | O => (e, g)
  | S n' =>
      let (e', g') := distribute_random e g in resampled n' e' g'
  end.

(** Whether [D] is invertible after [n] resamplings. *)
Definition invertible_after (n : nat) (e : ElectronConfiguration) (g : RNG)
  : bool :=
  isInvertible (econf_N (fst (resampled n e g)))
               (calc_D (fst (resampled n e g))).

(** The walker that lines 58-62 set up on a configuration. *)
Definition initial_walker (r : ElectronConfiguration * RNG)
  : HubbardModelVMC :=
  mkVMC (snd r) (fst r)
        (mat_mul (econf_N (fst r)) M
                 (inverse (econf_N (fst r)) (calc_D (fst r))))
        (calc_new_T (fst r)) 0%Z 0%Z.

(** ** Basic facts *)

Lemma bind_Some {A B : Type} (m : option A) (f : A -> option B) (b : B) :
  bind m f = Some b -> exists a, m = Some a /\ f a = Some b.
Proof.
  destruct m as [a|]; simpl; intros H; [eauto | discriminate].
Qed.

Ltac inv_bind H :=
  let a := fresh "a" in
  let Ha := fresh "Ha" in
  apply bind_Some in H; destruct H as [a [Ha H]].

Lemma Rltb_true a b : Rltb a b = true <-> a < b.
Proof. unfold Rltb; destruct (Rlt_dec a b); split; intros; try easy. Qed.

Lemma Rltb_false a b : Rltb a b = false <-> b <= a.
Proof.
  unfold Rltb; destruct (Rlt_dec a b); split; intros; try easy; lra.
Qed.

Lemma Rgeb_true a b : Rgeb a b = true <-> b <= a.
Proof.
  unfold Rgeb; destruct (Rge_dec a b); split; intros; try easy; lra.
Qed.

Lemma Rgeb_false a b : Rgeb a b = false <-> a < b.
Proof.
  unfold Rgeb; destruct (Rge_dec a b); split; intros; try easy; lra.
Qed.

(** [perform_WT_update] touches [W], [T] and the counter of quick updates only. *)
Lemma perform_WT_update_frame st hop st' :
  perform_WT_update st hop = Some st' ->
  rng st' = rng st /\ econf st' = econf st /\
  completed_mcsteps st' = completed_mcsteps st.
Proof.
  unfold perform_WT_update.
  destruct (updates_until_WT_recalc <=? updates_since_WT_recalc st)%Z.
  - intros H. inv_bind H. inversion H; subst; simpl; auto.
  - intros H. inv_bind H. inv_bind H. inversion H; subst; simpl; auto.
Qed.

Lemma accept_hop_true st hop b st' :
  accept_hop st hop = Some (b, st') -> b = true.
Proof.
  unfold accept_hop. intros H. inv_bind H. now inversion H.
Qed.

Lemma accept_hop_frame st hop b st' :
  accept_hop st hop = Some (b, st') ->
  rng st' = rng st /\ econf st' = do_hop (econf st) hop /\
  completed_mcsteps st' = completed_mcsteps st.
Proof.
  unfold accept_hop. intros H. inv_bind H. inversion H; subst.
  apply perform_WT_update_frame in Ha. simpl in Ha. exact Ha.
Qed.

(** In a build with [NDEBUG] no call fails. *)
Lemma perform_WT_update_total st hop :
  NDEBUG = true -> exists st', perform_WT_update st hop = Some st'.
Proof.
  intros Hn. unfold perform_WT_update, calc_new_W. rewrite Hn.
  destruct (updates_until_WT_recalc <=? updates_since_WT_recalc st)%Z;
    simpl; eauto.
Qed.

Lemma accept_hop_total st hop :
  NDEBUG = true -> exists st', accept_hop st hop = Some (true, st').
Proof.
  intros Hn. unfold accept_hop.
  destruct (perform_WT_update_total (set_econf st (do_hop (econf st) hop))
                                    hop Hn) as [st' ->].
  simpl. eauto.
Qed.

Lemma metstep_total st :
  NDEBUG = true -> exists r, metstep st = Some r.
Proof.
  intros Hn. unfold metstep.
  destruct (propose_random_hop _ _ _) as [phop g1].
  destruct (negb (possible phop)); [eauto|].
  destruct (Rgeb _ _).
  - destruct (accept_hop_total (set_rng st g1) phop Hn) as [st' ->]. eauto.
  - destruct (uniform_real _) as [u g2].
    destruct (Rltb _ _); [|eauto].
    destruct (accept_hop_total (set_rng (set_rng st g1) g2) phop Hn)
      as [st' ->]. eauto.
Qed.

Lemma metsteps_total n st :
  NDEBUG = true -> exists st', metsteps n st = Some st'.
Proof.
  intros Hn. revert st. induction n as [|n IH]; intros st; simpl; [eauto|].
  destruct (metstep_total st Hn) as [r ->]. simpl. apply IH.
Qed.

Lemma mcs_total st :
  NDEBUG = true -> exists st', mcs st = Some st'.
Proof.
  intros Hn. unfold mcs.
  destruct (metsteps_total (econf_N (econf st)) st Hn) as [st1 ->].
  simpl. eauto.
Qed.

Lemma sweeps_total n st :
  NDEBUG = true -> exists st', sweeps n st = Some st'.
Proof.
  intros Hn. revert st. induction n as [|n IH]; intros st; simpl; [eauto|].
  destruct (mcs_total st Hn) as [st1 ->]. simpl. apply IH.
Qed.

(** The three ways through [metstep]. *)
Lemma metstep_unfold st :
  metstep st =
  let phop := fst (propose_random_hop (econf st) update_hop_maxdist (rng st)) in
  let g1 := snd (propose_random_hop (econf st) update_hop_maxdist (rng st)) in
  let st1 := set_rng st g1 in
  if negb (possible phop) then Some (false, st1)
  else if Rgeb (accept_prob_of st1 phop) 1 then accept_hop st1 phop
  else
    let st2 := set_rng st1 (snd (uniform_real g1)) in
    if Rltb (fst (uniform_real g1)) (accept_prob_of st1 phop)
    then accept_hop st2 phop
    else Some (false, st2).
Proof.
  unfold metstep.
  destruct (propose_random_hop _ _ _) as [phop g1]. simpl.
  destruct (negb (possible phop)); [reflexivity|].
  destruct (Rgeb _ _); [reflexivity|].
  destruct (uniform_real g1) as [u g2]. reflexivity.
Qed.

(** C7.  A Metropolis step that returns [false], for an infeasible proposal
    or for a failed acceptance test, leaves the ratio matrix [W], the vector
    [T], the electron configuration and both counters as they were before
    the call. *)
Theorem metstep_rejected_frame st st' :
  metstep st = Some (false, st') ->
  W st' = W st /\ T st' = T st /\ econf st' = econf st /\
  completed_mcsteps st' = completed_mcsteps st /\
  updates_since_WT_recalc st' = updates_since_WT_recalc st.
Proof.
  rewrite metstep_unfold. cbv zeta.
  destruct (negb (possible _)).
  { intros H; inversion H; subst; simpl; auto. }
  destruct (Rgeb _ _).
  { intros H. apply accept_hop_true in H. discriminate. }
  destruct (Rltb _ _).
  { intros H. apply accept_hop_true in H. discriminate. }
  intros H; inversion H; subst; simpl; auto.
Qed.

(** What [metstep] does with a feasible proposal. *)
Lemma metstep_feasible st :
  let phop := fst (propose_random_hop (econf st) update_hop_maxdist (rng st)) in
  let g1 := snd (propose_random_hop (econf st) update_hop_maxdist (rng st)) in
  let p := (R_j_of st (l phop) (k_pos phop) * W st (l phop) (k phop)) ^ 2 in
  let u := fst (uniform_real g1) in
  let g2 := snd (uniform_real g1) in
  possible phop = true ->
  accept_prob_of (set_rng st g1) phop = p /\
  (1 <= p -> metstep st = accept_hop (set_rng st g1) phop) /\
  (p < 1 -> u < p ->
   metstep st = accept_hop (set_rng (set_rng st g1) g2) phop) /\
  (p < 1 -> p <= u ->
   metstep st = Some (false, set_rng (set_rng st g1) g2)) /\
  (forall b st', metstep st = Some (b, st') ->
                 (b = true <-> 1 <= p \/ u < p)).
Proof.
  intros phop g1 p u g2 Hposs.
  assert (Hp : accept_prob_of (set_rng st g1) phop = p).
  { unfold accept_prob_of, p, R_j_of. simpl. ring. }
  assert (Hm := metstep_unfold st). cbv zeta in Hm.
  fold phop g1 in Hm. fold u g2 in Hm.
  rewrite Hposs, Hp in Hm. simpl negb in Hm. cbv iota in Hm.
  split; [exact Hp|].
  split; [|split; [|split]].
  - intros H1. apply Rgeb_true in H1. now rewrite Hm, H1.
  - intros H1 H2. apply Rgeb_false in H1. apply Rltb_true in H2.
    now rewrite Hm, H1, H2.
  - intros H1 H2. apply Rgeb_false in H1. apply Rltb_false in H2.
    now rewrite Hm, H1, H2.
  - intros b st' H. rewrite Hm in H.
    destruct (Rgeb p 1) eqn:E1.
    + apply accept_hop_true in H. apply Rgeb_true in E1.
      split; [intros _; left; exact E1 | intros _; exact H].
    + destruct (Rltb u p) eqn:E2.
      * apply accept_hop_true in H. apply Rltb_true in E2.
        split; [intros _; right; exact E2 | intros _; exact H].
      * inversion H; subst. apply Rgeb_false in E1. apply Rltb_false in E2.
        split; [discriminate | lra].
Qed.

(** C3.  For a feasible proposal the acceptance probability is
    [p = (R_j * W(l,k))^2]; the hop is accepted without a draw when
    [p >= 1], otherwise exactly when the uniform draw is strictly below [p];
    and the step returns [true] exactly when the hop was accepted. *)
Theorem metstep_acceptance_rule st :
  let phop := fst (propose_random_hop (econf st) update_hop_maxdist (rng st)) in
  let g1 := snd (propose_random_hop (econf st) update_hop_maxdist (rng st)) in
  let p := (R_j_of st (l phop) (k_pos phop) * W st (l phop) (k phop)) ^ 2 in
  let u := fst (uniform_real g1) in
  let g2 := snd (uniform_real g1) in
  possible phop = true ->
  accept_prob_of (set_rng st g1) phop = p /\
  (1 <= p -> metstep st = accept_hop (set_rng st g1) phop) /\
  (p < 1 -> u < p ->
   metstep st = accept_hop (set_rng (set_rng st g1) g2) phop) /\
  (p < 1 -> p <= u ->
   metstep st = Some (false, set_rng (set_rng st g1) g2)) /\
  (forall b st', metstep st = Some (b, st') ->
                 (b = true <-> 1 <= p \/ u < p)).
Proof. exact (metstep_feasible st). Qed.

(** C10.  The step takes its acceptance draw from the generator exactly
    when the proposal is feasible and the acceptance probability is below 1:
    the generator is then left one uniform draw past the proposal, and in
    every other case as the proposal left it. *)
Theorem metstep_draws st b st' :
  let phop := fst (propose_random_hop (econf st) update_hop_maxdist (rng st)) in
  let g1 := snd (propose_random_hop (econf st) update_hop_maxdist (rng st)) in
  let p := accept_prob_of (set_rng st g1) phop in
  metstep st = Some (b, st') ->
  rng st' = (if possible phop && Rltb p 1 then snd (uniform_real g1) else g1)
  /\ ((forall g, snd (uniform_real g) <> g) ->
      (rng st' <> g1 <-> possible phop = true /\ p < 1)).
Proof.
  intros phop g1 p H.
  assert (Hr : rng st' =
               (if possible phop && Rltb p 1
                then snd (uniform_real g1) else g1)).
  { rewrite metstep_unfold in H. cbv zeta in H. fold phop g1 in H.
    fold p in H.
    destruct (possible phop); simpl in H.
    2:{ inversion H; subst; reflexivity. }
    destruct (Rgeb p 1) eqn:E1.
    { apply Rgeb_true in E1.
      assert (E : Rltb p 1 = false) by (apply Rltb_false; exact E1).
      rewrite E. simpl. apply accept_hop_frame in H. now destruct H as [-> _]. }
    apply Rgeb_false in E1.
    assert (E : Rltb p 1 = true) by (apply Rltb_true; exact E1).
    rewrite E. simpl.
    destruct (Rltb _ p).
    - apply accept_hop_frame in H. now destruct H as [-> _].
    - inversion H; subst; reflexivity. }
  split; [exact Hr|].
  intros Hfresh. rewrite Hr.
  destruct (possible phop); simpl.
  - destruct (Rltb p 1) eqn:E.
    + apply Rltb_true in E.
      split; [intros _; split; [reflexivity | exact E] | intros _; apply Hfresh].
    + apply Rltb_false in E.
      split; [intros Hne; exfalso; apply Hne; reflexivity|].
      intros [_ Hlt]. lra.
  - split; [intros Hne; exfalso; apply Hne; reflexivity|].
    intros [Hd _]. discriminate.
Qed.

Lemma perform_WT_update_recalc st hop :
  recalc_due st = true ->
  perform_WT_update st hop =
  (W' <- calc_new_W (econf st) ;;
   Some (mkVMC (rng st) (econf st) W' (calc_new_T (econf st))
               (completed_mcsteps st) 0%Z)).
Proof.
  unfold recalc_due, perform_WT_update. intros ->. reflexivity.
Qed.

Lemma perform_WT_update_quick st hop st' :
  recalc_due st = false ->
  perform_WT_update st hop = Some st' ->
  st' = mkVMC (rng st) (econf st) (calc_updated_W (W st) hop)
              (calc_updated_T (T st) hop) (completed_mcsteps st)
              (wrap32 (updates_since_WT_recalc st + 1)).
Proof.
  unfold recalc_due, perform_WT_update. intros -> H.
  inv_bind H. inv_bind H. inversion H. reflexivity.
Qed.

Lemma wrap32_small z : (0 <= z < 2 ^ 32)%Z -> wrap32 z = z.
Proof. intros H. unfold wrap32. now apply Z.mod_small. Qed.

(** C5.  On an accepted hop the maintainer recomputes [W] and [T] from
    scratch and resets the counter of quick updates to zero when that
    counter has reached the threshold; otherwise, and only then, it applies
    the two incremental updates and adds one to the counter. *)
Theorem perform_WT_update_policy st hop :
  (0 <= updates_since_WT_recalc st)%Z ->
  (updates_until_WT_recalc < 2 ^ 32)%Z ->
  ((updates_until_WT_recalc <= updates_since_WT_recalc st)%Z ->
   perform_WT_update st hop =
   (W' <- calc_new_W (econf st) ;;
    Some (mkVMC (rng st) (econf st) W' (calc_new_T (econf st))
                (completed_mcsteps st) 0%Z))) /\
  ((updates_since_WT_recalc st < updates_until_WT_recalc)%Z ->
   (forall st', perform_WT_update st hop = Some st' ->
                st' = mkVMC (rng st) (econf st)
                            (calc_updated_W (W st) hop)
                            (calc_updated_T (T st) hop)
                            (completed_mcsteps st)
                            (updates_since_WT_recalc st + 1)%Z) /\
   (NDEBUG = true -> exists st', perform_WT_update st hop = Some st')).
Proof.
  intros H0 Hmax. split.
  - intros Hge. apply perform_WT_update_recalc.
    unfold recalc_due. now apply Z.leb_le.
  - intros Hlt. split.
    + intros st' H.
      apply perform_WT_update_quick in H.
      * rewrite wrap32_small in H by lia. exact H.
      * unfold recalc_due. apply Z.leb_gt. exact Hlt.
    + apply perform_WT_update_total.
Qed.

Lemma perform_WT_update_counter_inv st hop st' :
  (updates_until_WT_recalc < 2 ^ 32)%Z ->
  counter_inv st -> perform_WT_update st hop = Some st' -> counter_inv st'.
Proof.
  intros Hmax [H0 H1] H. unfold counter_inv.
  destruct (recalc_due st) eqn:E.
  - rewrite (perform_WT_update_recalc st hop E) in H. inv_bind H.
    inversion H; subst; simpl. lia.
  - apply (perform_WT_update_quick st hop st' E) in H. subst st'. simpl.
    unfold recalc_due in E. apply Z.leb_gt in E.
    rewrite wrap32_small by lia. lia.
Qed.

Lemma accept_hop_counter_inv st hop b st' :
  (updates_until_WT_recalc < 2 ^ 32)%Z ->
  counter_inv st -> accept_hop st hop = Some (b, st') -> counter_inv st'.
Proof.
  intros Hmax Hinv H. unfold accept_hop in H. inv_bind H. inversion H; subst.
  eapply perform_WT_update_counter_inv; [exact Hmax | | exact Ha].
  exact Hinv.
Qed.

Lemma metstep_counter_inv st b st' :
  (updates_until_WT_recalc < 2 ^ 32)%Z ->
  counter_inv st -> metstep st = Some (b, st') -> counter_inv st'.
Proof.
  intros Hmax Hinv H. rewrite metstep_unfold in H. cbv zeta in H.
  destruct (negb (possible _)).
  { inversion H; subst. exact Hinv. }
  destruct (Rgeb _ _).
  { eapply accept_hop_counter_inv; [exact Hmax | | exact H]. exact Hinv. }
  destruct (Rltb _ _).
  { eapply accept_hop_counter_inv; [exact Hmax | | exact H]. exact Hinv. }
  inversion H; subst. exact Hinv.
Qed.

Lemma metsteps_counter_inv n st st' :
  (updates_until_WT_recalc < 2 ^ 32)%Z ->
  counter_inv st -> metsteps n st = Some st' -> counter_inv st'.
Proof.
  intros Hmax. revert st. induction n as [|n IH]; simpl; intros st Hinv H.
  - inversion H; subst; exact Hinv.
  - inv_bind H. destruct a as [b st1]. simpl in H.
    apply (IH st1); [|exact H].
    eapply metstep_counter_inv; eauto.
Qed.

Lemma mcs_counter_inv st st' :
  (updates_until_WT_recalc < 2 ^ 32)%Z ->
  counter_inv st -> mcs st = Some st' -> counter_inv st'.
Proof.
  intros Hmax Hinv H. unfold mcs in H. inv_bind H. inversion H; subst.
  unfold counter_inv. simpl.
  eapply metsteps_counter_inv; eauto.
Qed.

Lemma sweeps_counter_inv n st st' :
  (updates_until_WT_recalc < 2 ^ 32)%Z ->
  counter_inv st -> sweeps n st = Some st' -> counter_inv st'.
Proof.
  intros Hmax. revert st. induction n as [|n IH]; simpl; intros st Hinv H.
  - inversion H; subst; exact Hinv.
  - inv_bind H. apply (IH a); [|exact H]. eapply mcs_counter_inv; eauto.
Qed.

Lemma equilibrate_counter_inv n st st' :
  (updates_until_WT_recalc < 2 ^ 32)%Z ->
  counter_inv st -> equilibrate n st = Some st' -> counter_inv st'.
Proof.
  intros Hmax Hinv H. unfold equilibrate in H. inv_bind H. inversion H; subst.
  unfold counter_inv. simpl.
  eapply sweeps_counter_inv; eauto.
Qed.

Lemma construct_counters fuel g st :
  construct fuel g = Some st ->
  completed_mcsteps st = 0%Z /\ updates_since_WT_recalc st = 0%Z.
Proof.
  unfold construct. destruct (econf_init _ _ _) as [e0 g0].
  intros H. inv_bind H. destruct a as [e g']. inversion H; subst. simpl. auto.
Qed.

(** A run of quick updates adds its length to the counter. *)
Lemma all_quick_counter hops : forall st st',
  (updates_until_WT_recalc < 2 ^ 32)%Z ->
  counter_inv st ->
  all_quick st hops -> accept_hops st hops = Some st' ->
  updates_since_WT_recalc st' =
  (updates_since_WT_recalc st + Z.of_nat (length hops))%Z.
Proof.
  induction hops as [|hop rest IH]; intros st st' Hmax Hinv Hq H.
  - simpl in H. inversion H; subst. simpl. lia.
  - simpl in H, Hq. destruct Hq as [Hdue Hq].
    inv_bind H. rewrite Ha in Hq. destruct a as [b st1]. simpl in H, Hq.
    assert (Hinv1 : counter_inv st1)
      by (eapply accept_hop_counter_inv; eauto).
    rewrite (IH st1 st' Hmax Hinv1 Hq H).
    unfold accept_hop in Ha. inv_bind Ha. inversion Ha; subst.
    apply perform_WT_update_quick in Ha0; [|exact Hdue]. subst st1.
    cbn [updates_since_WT_recalc set_econf length].
    unfold recalc_due in Hdue. apply Z.leb_gt in Hdue. destruct Hinv.
    rewrite wrap32_small by lia. lia.
Qed.

(** C9.  The counter of quick updates is zero after construction and stays
    between zero and the threshold under every operation of the walker; so
    no more than [updates_until_WT_recalc] quick updates follow one another,
    and with a threshold of zero every accepted hop recomputes [W] and [T]. *)
Theorem updates_since_WT_recalc_bounded :
  (0 <= updates_until_WT_recalc < 2 ^ 32)%Z ->
  (forall fuel g st, construct fuel g = Some st ->
                     updates_since_WT_recalc st = 0%Z /\ counter_inv st) /\
  (forall st hop st', counter_inv st ->
                      perform_WT_update st hop = Some st' -> counter_inv st') /\
  (forall st b st', counter_inv st ->
                    metstep st = Some (b, st') -> counter_inv st') /\
  (forall st st', counter_inv st -> mcs st = Some st' -> counter_inv st') /\
  (forall n st st', counter_inv st ->
                    equilibrate n st = Some st' -> counter_inv st') /\
  (forall st hops st', counter_inv st -> all_quick st hops ->
                       accept_hops st hops = Some st' ->
                       (Z.of_nat (length hops) <= updates_until_WT_recalc)%Z) /\
  (updates_until_WT_recalc = 0%Z ->
   forall st hop, counter_inv st ->
     perform_WT_update st hop =
     (W' <- calc_new_W (econf st) ;;
      Some (mkVMC (rng st) (econf st) W' (calc_new_T (econf st))
                  (completed_mcsteps st) 0%Z))).
Proof.
  intros [Hlo Hmax].
  split; [|split; [|split; [|split; [|split; [|split]]]]].
  - intros fuel g st H. apply construct_counters in H. destruct H as [_ H].
    split; [exact H|]. unfold counter_inv. rewrite H. lia.
  - intros st hop st' Hinv H. eapply perform_WT_update_counter_inv; eauto.
  - intros st b st' Hinv H. eapply metstep_counter_inv; eauto.
  - intros st st' Hinv H. eapply mcs_counter_inv; eauto.
  - intros n st st' Hinv H. eapply equilibrate_counter_inv; eauto.
  - intros st hops st' Hinv Hq H.
    assert (Hc := all_quick_counter hops st st' Hmax Hinv Hq H).
    assert (Hinv' : counter_inv st').
    { clear Hc Hq. revert st Hinv H.
      induction hops as [|hop rest IH]; simpl; intros st Hinv H.
      - inversion H; subst; exact Hinv.
      - inv_bind H. destruct a as [b st1]. simpl in H.
        apply (IH st1); [|exact H]. eapply accept_hop_counter_inv; eauto. }
    destruct Hinv as [Hinv _]. destruct Hinv' as [_ Hinv']. lia.
  - intros Hzero st hop [Hinv _]. apply perform_WT_update_recalc.
    unfold recalc_due. apply Z.leb_le. lia.
Qed.

Lemma wrap64_range z : (0 <= wrap64 z < 2 ^ 64)%Z.
Proof. unfold wrap64. apply Z.mod_pos_bound. lia. Qed.

Lemma metsteps_completed n st st' :
  metsteps n st = Some st' -> completed_mcsteps st' = completed_mcsteps st.
Proof.
  revert st. induction n as [|n IH]; simpl; intros st H.
  - now inversion H.
  - inv_bind H. destruct a as [b st1]. simpl in H.
    rewrite (IH st1 H). clear IH H.
    rewrite metstep_unfold in Ha. cbv zeta in Ha.
    destruct (negb (possible _)); [now inversion Ha|].
    destruct (Rgeb _ _).
    { apply accept_hop_frame in Ha. now destruct Ha as [_ [_ ->]]. }
    destruct (Rltb _ _).
    { apply accept_hop_frame in Ha. now destruct Ha as [_ [_ ->]]. }
    now inversion Ha.
Qed.

Lemma mcs_completed st st' :
  mcs st = Some st' ->
  completed_mcsteps st' = wrap64 (completed_mcsteps st + 1).
Proof.
  unfold mcs. intros H. inv_bind H. inversion H; subst. simpl.
  now rewrite (metsteps_completed _ _ _ Ha).
Qed.

Lemma sweeps_completed n st st' :
  (0 <= completed_mcsteps st < 2 ^ 64)%Z ->
  sweeps n st = Some st' ->
  completed_mcsteps st' = wrap64 (completed_mcsteps st + Z.of_nat n).
Proof.
  revert st. induction n as [|n IH]; intros st Hr H.
  - simpl in H. inversion H; subst. unfold wrap64.
    rewrite Z.add_0_r. symmetry. now apply Z.mod_small.
  - simpl in H. inv_bind H. pose proof (mcs_completed _ _ Ha) as Hc.
    rewrite (IH a); [|rewrite Hc; apply wrap64_range|exact H].
    rewrite Hc. unfold wrap64.
    rewrite Zplus_mod_idemp_l. f_equal. lia.
Qed.

(** C8.  [equilibrate(k)] returns with the sweep counter [mctime] at its
    value on entry, for every [k]; after construction, [equilibrate(k)] and
    one more sweep leave it at 1. *)
Theorem equilibrate_keeps_mctime (N_mcs_equil : nat) st :
  (0 <= completed_mcsteps st < 2 ^ 64)%Z ->
  (forall st', equilibrate N_mcs_equil st = Some st' ->
               mctime st' = mctime st) /\
  (NDEBUG = true -> exists st', equilibrate N_mcs_equil st = Some st') /\
  (forall fuel g st1 st2,
      construct fuel g = Some st ->
      equilibrate N_mcs_equil st = Some st1 -> mcs st1 = Some st2 ->
      mctime st2 = 1%Z).
Proof.
  intros Hr.
  assert (Heq : forall st', equilibrate N_mcs_equil st = Some st' ->
                            mctime st' = mctime st).
  { intros st' H. unfold equilibrate in H. inv_bind H. inversion H; subst.
    unfold mctime. simpl.
    rewrite (sweeps_completed _ _ _ Hr Ha). unfold wrap64.
    rewrite Zminus_mod_idemp_l.
    replace (completed_mcsteps st + Z.of_nat N_mcs_equil
             - Z.of_nat N_mcs_equil)%Z with (completed_mcsteps st) by lia.
    now apply Z.mod_small. }
  split; [exact Heq|]. split.
  - intros Hn. unfold equilibrate.
    destruct (sweeps_total N_mcs_equil st Hn) as [st1 ->]. simpl. eauto.
  - intros fuel g st1 st2 Hc He Hm.
    apply construct_counters in Hc. destruct Hc as [Hc _].
    apply Heq in He. apply mcs_completed in Hm. unfold mctime in *.
    rewrite Hm, He, Hc. reflexivity.
Qed.

(** C6 (as amended).  In a build with assertions, an entry of the updated
    [W] or [T] and its recomputed value are taken as reconciled, whatever
    their relative error, as soon as the SUM of their magnitudes is below
    0.001. *)
Theorem chk_small_pair (x x_chk : R) :
  Rabs x + Rabs x_chk < 1 / 1000 ->
  chk_W x x_chk = true /\ chk_T x x_chk = true.
Proof.
  intros H. unfold chk_W, chk_T.
  assert (E : Rltb (Rabs x + Rabs x_chk) f32_0_001 = true)
    by (apply Rltb_true; unfold f32_0_001; lra).
  rewrite E. split; reflexivity.
Qed.

Lemma get_spinup_site_up s : (s < L lat)%nat -> get_spinup_site lat s = s.
Proof.
  intros H. unfold get_spinup_site.
  destruct (Nat.leb_spec (L lat) s); [lia | reflexivity].
Qed.


(** For spin-up orbitals the spin-orbital index is the site, and the ratio
    of lines 125-127 is the ratio with [v] read at the sites. *)
Lemma R_j_up_spin st l_ k_pos_ :
  (l_ < L lat)%nat -> (k_pos_ < L lat)%nat ->
  R_j_of st l_ k_pos_ = R_j_spec st l_ k_pos_.
Proof.
  intros Hl Hk. unfold R_j_of, R_j_spec.
  now rewrite !get_spinup_site_up.
Qed.

(** A loop that adds [f x] for the [x] that pass [c]. *)
Lemma fold_left_cond_sum {A : Type} (c : A -> bool) (f : A -> R) xs : forall a,
  fold_left (fun acc x => if c x then acc + f x else acc) xs a =
  a + list_sum (map f (filter c xs)).
Proof.
  induction xs as [|x xs IH]; intros a; simpl.
  - lra.
  - rewrite IH. destruct (c x); simpl; lra.
Qed.

Lemma E_l_shell_sum st k_ k_pos_ X :
  E_l_shell st k_ k_pos_ X =
  list_sum
    (map (fun l_ => R_j_of st l_ k_pos_ * W st l_ k_)
         (filter (fun l_ => occ_eqb (get_site_occ (econf st) l_)
                                    ELECTRON_OCCUPATION_EMPTY)
                 (get_Xnn lat k_pos_ X))).
Proof.
  unfold E_l_shell.
  rewrite (fold_left_cond_sum
             (fun l_ => occ_eqb (get_site_occ (econf st) l_)
                                ELECTRON_OCCUPATION_EMPTY)
             (fun l_ => R_j_of st l_ k_pos_ * W st l_ k_)).
  lra.
Qed.

Lemma E_l_shells_sum st k_ k_pos_ E :
  E_l_shells st k_ k_pos_ E =
  E + list_sum
        (map (fun X => - nth (X - 1) t 0 * E_l_shell st k_ k_pos_ X)
             (filter (fun X => negb (Reqb (nth (X - 1) t 0) 0))
                     (seq 1 (length t)))).
Proof.
  unfold E_l_shells.
  rewrite <- (fold_left_cond_sum
                (fun X => negb (Reqb (nth (X - 1) t 0) 0))
                (fun X => - nth (X - 1) t 0 * E_l_shell st k_ k_pos_ X)).
  generalize (seq 1 (length t)). intros xs. revert E.
  induction xs as [|X xs IH]; intros E; simpl; [reflexivity|].
  destruct (Reqb _ _); simpl; rewrite <- IH; f_equal. lra.
Qed.

Lemma get_site_occ_electron e eid :
  (eid < econf_N e)%nat ->
  get_site_occ e (get_electron_pos e eid) = ELECTRON_OCCUPATION_FULL.
Proof.
  intros H. unfold get_site_occ, get_electron_pos.
  assert (Hin : In (nth eid (electron_pos e) O) (electron_pos e))
    by (apply nth_In; exact H).
  assert (E : existsb (Nat.eqb (nth eid (electron_pos e) O))
                      (electron_pos e) = true).
  { apply existsb_exists. eexists. split; [exact Hin|]. apply Nat.eqb_refl. }
  now rewrite E.
Qed.

(** The loop over the electrons, for indices that name electrons. *)
Lemma E_l_electrons_sum st ks : forall E,
  Forall (fun k_ => (k_ < econf_N (econf st))%nat) ks ->
  fold_left
    (fun acc k_ =>
       E <- acc ;;
       let k_pos_ := get_electron_pos (econf st) k_ in
       (if NDEBUG then Some tt
        else assert (occ_eqb (get_site_occ (econf st) k_pos_)
                             ELECTRON_OCCUPATION_FULL)) ;;;
       Some (E_l_shells st k_ k_pos_ E))
    ks (Some E) =
  Some (E + list_sum
              (map (fun k_ =>
                      E_l_shells st k_ (get_electron_pos (econf st) k_) 0)
                   ks)).
Proof.
  induction ks as [|k_ ks IH]; intros E Hks; simpl.
  - f_equal. lra.
  - inversion Hks as [|? ? Hk Hks']; subst.
    rewrite (get_site_occ_electron _ _ Hk). simpl.
    replace (if NDEBUG then Some tt else Some tt) with (Some tt)
      by (destruct NDEBUG; reflexivity).
    simpl. rewrite IH by exact Hks'. f_equal.
    rewrite (E_l_shells_sum st k_ _ E), (E_l_shells_sum st k_ _ 0). lra.
Qed.

(** C4.  [E_l] only reads the walker (it is a function of its state that
    returns a number and no new state), never fails, and returns
    [(E_kin + U * double occupancies) / L], where [E_kin] adds up, over the
    electrons and the distance classes with a hopping amplitude other than
    zero, minus that amplitude times the sum of [R_j * W(l,k)] over the empty
    sites [l] of the class. *)
Theorem E_l_value st :
  E_l st =
  Some ((E_kin_spec st + U * INR (get_num_dblocc lat (econf st)))
        / INR (L lat)).
Proof.
  unfold E_l. rewrite E_l_electrons_sum.
  2:{ apply Forall_forall. intros x Hx. apply in_seq in Hx. lia. }
  simpl. do 2 f_equal. f_equal. rewrite Rplus_0_l.
  unfold E_kin_spec. f_equal. apply map_ext. intros k_.
  rewrite E_l_shells_sum, Rplus_0_l. f_equal. apply map_ext. intros X.
  now rewrite E_l_shell_sum.
Qed.

(** ** Finite sums and matrix products *)

Lemma sum_upto_ext n f g :
  (forall c, (c < n)%nat -> f c = g c) -> sum_upto n f = sum_upto n g.
Proof.
  induction n as [|n IH]; intros H; simpl; [reflexivity|].
  rewrite IH, H by (intros; try apply H; lia). reflexivity.
Qed.

Lemma sum_upto_plus n f g :
  sum_upto n (fun c => f c + g c) = sum_upto n f + sum_upto n g.
Proof. induction n as [|n IH]; simpl; [|rewrite IH]; lra. Qed.

Lemma sum_upto_minus n f g :
  sum_upto n (fun c => f c - g c) = sum_upto n f - sum_upto n g.
Proof. induction n as [|n IH]; simpl; [|rewrite IH]; lra. Qed.

Lemma sum_upto_scal_l n a f :
  sum_upto n (fun c => a * f c) = a * sum_upto n f.
Proof. induction n as [|n IH]; simpl; [|rewrite IH]; lra. Qed.

Lemma sum_upto_scal_r n a f :
  sum_upto n (fun c => f c * a) = sum_upto n f * a.
Proof. induction n as [|n IH]; simpl; [|rewrite IH]; lra. Qed.

Lemma sum_upto_zero n f :
  (forall c, (c < n)%nat -> f c = 0) -> sum_upto n f = 0.
Proof.
  induction n as [|n IH]; intros H; simpl; [reflexivity|].
  rewrite IH, H by (intros; try apply H; lia). lra.
Qed.

(** A sum against a row or a column of the identity picks one term. *)
Lemma sum_upto_identity_l n r f :
  (r < n)%nat -> sum_upto n (fun c => identity r c * f c) = f r.
Proof.
  induction n as [|n IH]; intros H; [lia|]. simpl.
  destruct (Nat.eq_dec r n) as [->|Hne].
  - rewrite sum_upto_zero.
    + unfold identity. rewrite Nat.eqb_refl. lra.
    + intros c Hc. unfold identity.
      destruct (Nat.eqb_spec n c); [lia | lra].
  - rewrite IH by lia. unfold identity.
    destruct (Nat.eqb_spec r n); [lia | lra].
Qed.

Lemma identity_sym i j : identity i j = identity j i.
Proof. unfold identity. now rewrite Nat.eqb_sym. Qed.

Lemma sum_upto_identity_r n r f :
  (r < n)%nat -> sum_upto n (fun c => f c * identity c r) = f r.
Proof.
  intros H. rewrite <- (sum_upto_identity_l n r f H).
  apply sum_upto_ext. intros c _. rewrite identity_sym. lra.
Qed.

Lemma sum_upto_identity_row n r :
  (r < n)%nat -> sum_upto n (identity r) = 1.
Proof.
  intros H. rewrite <- (sum_upto_identity_l n r (fun _ => 1) H).
  apply sum_upto_ext. intros; lra.
Qed.

Lemma sum_upto_swap n m (f : nat -> nat -> R) :
  sum_upto n (fun i => sum_upto m (fun j => f i j)) =
  sum_upto m (fun j => sum_upto n (fun i => f i j)).
Proof.
  induction n as [|n IH]; simpl.
  - symmetry. apply sum_upto_zero. reflexivity.
  - rewrite IH, <- sum_upto_plus. reflexivity.
Qed.

Lemma mat_mul_assoc n m (A B C : Matrix) i j :
  mat_mul n (mat_mul m A B) C i j = mat_mul m A (mat_mul n B C) i j.
Proof.
  unfold mat_mul.
  rewrite (sum_upto_ext n _
             (fun c => sum_upto m (fun c0 => A i c0 * B c0 c * C c j)))
    by (intros; now rewrite sum_upto_scal_r).
  rewrite sum_upto_swap. apply sum_upto_ext. intros c _.
  rewrite <- sum_upto_scal_l. apply sum_upto_ext. intros; lra.
Qed.

(** Two-sided inverses agree on their range. *)
Lemma is_inverse_unique n D X Y :
  is_inverse n D X -> is_inverse n D Y -> mat_eq n n X Y.
Proof.
  intros [_ HX] [HY _] i j Hi Hj.
  transitivity (mat_mul n X (mat_mul n D Y) i j).
  - unfold mat_mul at 1.
    rewrite (sum_upto_ext n _ (fun c => X i c * identity c j))
      by (intros c Hc; now rewrite (HY c j Hc Hj)).
    now rewrite sum_upto_identity_r.
  - rewrite <- mat_mul_assoc. unfold mat_mul at 1.
    rewrite (sum_upto_ext n _ (fun c => identity i c * Y c j))
      by (intros c Hc; now rewrite (HX i c Hi Hc)).
    now rewrite sum_upto_identity_l.
Qed.

Lemma row_replaced_inverse_ok n (D Dinv D' : Matrix) (m w : nat -> R) k_ :
  (k_ < n)%nat ->
  is_inverse n D Dinv ->
  (forall j, (j < n)%nat -> w j = sum_upto n (fun c => m c * Dinv c j)) ->
  w k_ <> 0 ->
  (forall r c, (r < n)%nat -> (c < n)%nat ->
               D' r c = if Nat.eqb r k_ then m c else D r c) ->
  is_inverse n D' (row_replaced_inverse Dinv w k_).
Proof.
  intros Hk [HDX HXD] Hw Hwk HD'.
  (* D' * Dinv is the identity with row k_ replaced by w *)
  assert (HA : forall r j, (r < n)%nat -> (j < n)%nat ->
             sum_upto n (fun c => D' r c * Dinv c j) =
             if Nat.eqb r k_ then w j else identity r j).
  { intros r j Hr Hj.
    destruct (Nat.eqb_spec r k_) as [->|Hne].
    - rewrite (Hw j Hj). apply sum_upto_ext. intros c Hc.
      rewrite (HD' k_ c Hk Hc), Nat.eqb_refl. reflexivity.
    - rewrite <- (HDX r j Hr Hj). apply sum_upto_ext. intros c Hc.
      rewrite (HD' r c Hr Hc).
      destruct (Nat.eqb_spec r k_); [contradiction | reflexivity]. }
  (* w * D is the new row m *)
  assert (HwD : forall j, (j < n)%nat ->
              sum_upto n (fun r => w r * D r j) = m j).
  { intros j Hj.
    rewrite (sum_upto_ext n _
               (fun r => sum_upto n (fun c => m c * Dinv c r * D r j))).
    2:{ intros r Hr. rewrite (Hw r Hr). now rewrite sum_upto_scal_r. }
    rewrite sum_upto_swap.
    rewrite (sum_upto_ext n _ (fun c => m c * identity c j)).
    2:{ intros c Hc. rewrite <- (HXD c j Hc Hj). unfold mat_mul.
        rewrite <- sum_upto_scal_l. apply sum_upto_ext. intros; lra. }
    now rewrite sum_upto_identity_r. }
  split; intros r j Hr Hj; unfold mat_mul, row_replaced_inverse.
  - rewrite (sum_upto_ext n _
               (fun c => D' r c * Dinv c j
                         - D' r c * Dinv c k_
                           * ((w j - identity k_ j) / w k_)))
      by (intros; lra).
    rewrite sum_upto_minus, sum_upto_scal_r, !HA by assumption.
    destruct (Nat.eqb_spec r k_) as [->|Hne].
    + field. exact Hwk.
    + unfold identity at 2.
      destruct (Nat.eqb_spec r k_); [contradiction | lra].
  - rewrite (sum_upto_ext n _
               (fun c => Dinv r c * D c j
                         + Dinv r c * identity c k_ * (m j - D k_ j)
                         - (w c * D c j
                            + w c * identity c k_ * (m j - D k_ j)
                            - identity k_ c * m j)
                           * (Dinv r k_ / w k_))).
    2:{ intros c Hc. rewrite (HD' c j Hc Hj). unfold identity.
        rewrite (Nat.eqb_sym k_ c).
        destruct (Nat.eqb_spec c k_) as [->|Hne]; field; exact Hwk. }
    rewrite sum_upto_minus, sum_upto_scal_r, sum_upto_minus.
    rewrite !sum_upto_plus, !sum_upto_scal_r.
    rewrite !sum_upto_identity_r by assumption.
    rewrite sum_upto_identity_row by assumption.
    rewrite (HwD j Hj).
    specialize (HXD r j Hr Hj). unfold mat_mul in HXD. rewrite HXD.
    field. exact Hwk.
Qed.

(** ** The electron configuration under a hop *)

Lemma set_nth_length i x xs : length (set_nth i x xs) = length xs.
Proof.
  revert i. induction xs as [|y xs IH]; intros [|i]; simpl; auto.
Qed.

Lemma nth_set_nth i x xs : forall r,
  (i < length xs)%nat ->
  nth r (set_nth i x xs) O = if Nat.eqb r i then x else nth r xs O.
Proof.
  revert i. induction xs as [|y xs IH]; intros i r Hi; simpl in Hi; [lia|].
  destruct i as [|i]; destruct r as [|r]; simpl; try reflexivity.
  apply IH. lia.
Qed.

Lemma in_set_nth i x xs s :
  NoDup xs -> (i < length xs)%nat ->
  (In s (set_nth i x xs) <-> s = x \/ (In s xs /\ s <> nth i xs O)).
Proof.
  revert i. induction xs as [|y xs IH]; intros i Hnd Hi; simpl in Hi; [lia|].
  inversion Hnd as [|? ? Hy Hnd']; subst.
  destruct i as [|i]; simpl.
  - split.
    + intros [<-|Hin]; [now left|]. right. split; [now right|].
      intros ->. contradiction.
    + intros [->|[[<-|Hin] Hne]]; [now left | contradiction | now right].
  - rewrite (IH i Hnd') by lia. split.
    + intros [<-|[->|[Hin Hne]]]; [| now left | now right; split; [right|]].
      right. split; [now left|]. intros ->. apply Hy. apply nth_In. lia.
    + intros [->|[[<-|Hin] Hne]]; [now right; left | now left |].
      right; right. now split.
Qed.

Lemma do_hop_N e hop : econf_N (do_hop e hop) = econf_N e.
Proof. unfold econf_N, do_hop. simpl. apply set_nth_length. Qed.

Lemma get_site_occ_full e s :
  get_site_occ e s = ELECTRON_OCCUPATION_FULL <-> In s (electron_pos e).
Proof.
  unfold get_site_occ.
  destruct (existsb (Nat.eqb s) (electron_pos e)) eqn:E.
  - split; [|reflexivity]. intros _.
    apply existsb_exists in E. destruct E as [x [Hin Hx]].
    apply Nat.eqb_eq in Hx. now subst.
  - split; [discriminate|]. intros Hin.
    assert (E' : existsb (Nat.eqb s) (electron_pos e) = true).
    { apply existsb_exists. exists s. split; [exact Hin|]. apply Nat.eqb_refl. }
    congruence.
Qed.

Lemma get_site_occ_empty e s :
  get_site_occ e s = ELECTRON_OCCUPATION_EMPTY <-> ~ In s (electron_pos e).
Proof.
  rewrite <- get_site_occ_full.
  destruct (get_site_occ e s); split; intros H; easy.
Qed.

Lemma occ_R_in e s : In s (electron_pos e) -> occ_R e s = 1.
Proof.
  intros H. apply get_site_occ_full in H. unfold occ_R. now rewrite H.
Qed.

Lemma occ_R_out e s : ~ In s (electron_pos e) -> occ_R e s = 0.
Proof.
  intros H. apply get_site_occ_empty in H. unfold occ_R. now rewrite H.
Qed.

Section Hop.

Variable e : ElectronConfiguration.
Variable hop : ElectronHop.
Hypothesis e_wf : econf_wf lat e.
Hypothesis h_wf : hop_wf lat e hop.
Hypothesis h_possible : possible hop = true.

Lemma hop_target_free : ~ In (l hop) (electron_pos e).
Proof using h_wf h_possible.
  destruct h_wf as [_ [_ [_ H]]]. apply get_site_occ_empty. now apply H.
Qed.

Lemma hop_source_in : In (k_pos hop) (electron_pos e).
Proof using h_wf.
  destruct h_wf as [Hk [-> _]]. unfold get_electron_pos. now apply nth_In.
Qed.

Lemma hop_source_lt : (k_pos hop < 2 * L lat)%nat.
Proof using e_wf h_wf.
  destruct e_wf as [_ Hall]. rewrite Forall_forall in Hall.
  apply Hall. apply hop_source_in.
Qed.

Lemma do_hop_wf : econf_wf lat (do_hop e hop).
Proof using e_wf h_wf h_possible.
  destruct e_wf as [Hnd Hall]. destruct h_wf as [Hk [Hkp [Hl _]]].
  pose proof hop_target_free as Hfree.
  unfold econf_wf, do_hop. simpl. unfold econf_N in Hk.
  rewrite Forall_forall in *. split.
  - apply (NoDup_nth _ O). rewrite set_nth_length. intros i j Hi Hj.
    rewrite !nth_set_nth by exact Hk.
    destruct (Nat.eqb_spec i (k hop)) as [->|Hi'];
      destruct (Nat.eqb_spec j (k hop)) as [->|Hj']; try easy.
    + intros E. exfalso. apply Hfree. rewrite E. now apply nth_In.
    + intros E. exfalso. apply Hfree. rewrite <- E. now apply nth_In.
    + intros E. now apply (proj1 (NoDup_nth _ O) Hnd).
  - intros s Hs. apply in_set_nth in Hs; [|exact Hnd|exact Hk].
    destruct Hs as [->|[Hs _]]; [exact Hl | now apply Hall].
Qed.

(** The hop empties [k_pos] and fills [l]. *)
Lemma occ_R_do_hop s :
  occ_R (do_hop e hop) s
  = occ_R e s + identity s (l hop) - identity s (k_pos hop).
Proof using e_wf h_wf h_possible.
  destruct e_wf as [Hnd Hall]. destruct h_wf as [Hk [Hkp [Hl _]]].
  pose proof hop_target_free as Hfree. pose proof hop_source_in as Hsrc.
  assert (Hin : In s (electron_pos (do_hop e hop)) <->
                s = l hop \/ (In s (electron_pos e) /\ s <> k_pos hop)).
  { unfold do_hop. simpl. rewrite Hkp. unfold get_electron_pos.
    apply in_set_nth; assumption. }
  unfold identity.
  destruct (Nat.eqb_spec s (l hop)) as [->|Hsl].
  - rewrite occ_R_in by (apply Hin; now left).
    rewrite occ_R_out by exact Hfree.
    destruct (Nat.eqb_spec (l hop) (k_pos hop)) as [E|_]; [|lra].
    exfalso. apply Hfree. now rewrite E.
  - destruct (Nat.eqb_spec s (k_pos hop)) as [->|Hsk].
    + rewrite occ_R_out by (rewrite Hin; intros [?|[_ ?]]; congruence).
      rewrite occ_R_in by exact Hsrc. lra.
    + destruct (in_dec Nat.eq_dec s (electron_pos e)) as [Hs|Hs].
      * rewrite !occ_R_in; [lra | exact Hs | apply Hin; now right].
      * rewrite !occ_R_out; [lra | exact Hs |].
        rewrite Hin. intros [?|[? _]]; contradiction.
Qed.

End Hop.

(** ** Recomputation against the incremental updates *)

Lemma fold_left_seq_sum (f : nat -> R) n :
  fold_left (fun sum j => sum + f j) (seq 0 n) 0 = sum_upto n f.
Proof.
  induction n as [|n IH]; [reflexivity|].
  rewrite seq_S, fold_left_app, IH. reflexivity.
Qed.

Lemma calc_new_T_sum e i :
  calc_new_T e i =
  exp (sum_upto (L lat)
         (fun j => v i j * (occ_R e j + occ_R e (j + L lat)))).
Proof.
  unfold calc_new_T.
  rewrite (fold_left_seq_sum
             (fun j => v i j * INR (occ_value (get_site_occ e j)
                                    + occ_value (get_site_occ e (j + L lat))))).
  f_equal. apply sum_upto_ext. intros j _. unfold occ_R.
  now rewrite plus_INR.
Qed.

(** Over the sites [j < L], the two spin-orbitals of [j] meet [s] exactly
    when [j] is the site of [s]. *)
Lemma identity_spinup_site j s :
  (j < L lat)%nat -> (s < 2 * L lat)%nat ->
  identity j s + identity (j + L lat)%nat s
  = identity j (get_spinup_site lat s).
Proof.
  intros Hj Hs. unfold identity, get_spinup_site.
  destruct (Nat.leb_spec (L lat) s);
    destruct (Nat.eqb_spec j s);
    destruct (Nat.eqb_spec (j + L lat) s);
    destruct (Nat.eqb_spec j (s - L lat));
    try lia; try lra;
    destruct (Nat.eqb_spec j s); try lia; lra.
Qed.

Lemma get_spinup_site_lt s :
  (s < 2 * L lat)%nat -> (get_spinup_site lat s < L lat)%nat.
Proof.
  intros Hs. unfold get_spinup_site.
  destruct (Nat.leb_spec (L lat) s); lia.
Qed.

(** The quick update of [T] is the recomputation after the hop. *)
Lemma calc_updated_T_exact e hop T0 :
  econf_wf lat e -> hop_wf lat e hop -> possible hop = true ->
  vec_eq (L lat) T0 (calc_new_T e) ->
  vec_eq (L lat) (calc_updated_T T0 hop) (calc_new_T (do_hop e hop)).
Proof.
  intros Hwf Hhop Hposs HT i Hi. unfold calc_updated_T.
  rewrite (HT i Hi), !calc_new_T_sum, <- exp_plus. f_equal.
  assert (Hl : (l hop < 2 * L lat)%nat) by (destruct Hhop as [_ [_ [H _]]]; exact H).
  assert (Hk : (k_pos hop < 2 * L lat)%nat)
    by (apply (hop_source_lt e hop); assumption).
  rewrite (sum_upto_ext (L lat)
             (fun j => v i j * (occ_R (do_hop e hop) j
                                + occ_R (do_hop e hop) (j + L lat)))
             (fun j => v i j * (occ_R e j + occ_R e (j + L lat))
                       + (v i j * identity j (get_spinup_site lat (l hop))
                          - v i j
                            * identity j (get_spinup_site lat (k_pos hop))))).
  2:{ intros j Hj.
      rewrite !(occ_R_do_hop e hop Hwf Hhop Hposs).
      rewrite <- (identity_spinup_site j (l hop) Hj Hl).
      rewrite <- (identity_spinup_site j (k_pos hop) Hj Hk). lra. }
  rewrite sum_upto_plus, sum_upto_minus.
  rewrite !sum_upto_identity_r by (apply get_spinup_site_lt; assumption).
  reflexivity.
Qed.

Lemma calc_D_do_hop e hop r c :
  (k hop < econf_N e)%nat ->
  calc_D (do_hop e hop) r c =
  if Nat.eqb r (k hop) then M (l hop) c else calc_D e r c.
Proof.
  intros Hk. unfold calc_D, get_electron_pos, do_hop. simpl.
  rewrite nth_set_nth by exact Hk.
  now destruct (Nat.eqb r (k hop)).
Qed.

(** The quick update of [W] (Sherman-Morrison for the replaced row of [D]). *)
Lemma calc_updated_W_exact e hop W0 :
  let n := econf_N e in
  FullPivLU_exact n ->
  econf_wf lat e -> hop_wf lat e hop -> possible hop = true ->
  invertible n (calc_D e) ->
  mat_eq (2 * L lat) n W0 (mat_mul n M (inverse n (calc_D e))) ->
  W0 (l hop) (k hop) <> 0 ->
  invertible n (calc_D (do_hop e hop)) /\
  mat_eq (2 * L lat) n (calc_updated_W W0 hop)
         (mat_mul n M (inverse n (calc_D (do_hop e hop)))).
Proof.
  intros n Hlu Hwf Hhop Hposs Hinv HW Hnz.
  destruct (Hlu _ Hinv) as [HDinv _].
  set (Dinv := inverse n (calc_D e)) in *.
  destruct Hhop as [Hk [Hkp [Hl Hfree]]]. fold n in Hk.
  assert (Hkl : (k_pos hop < 2 * L lat)%nat).
  { apply (hop_source_lt e hop); [assumption|]. repeat split; assumption. }
  assert (HX : is_inverse n (calc_D (do_hop e hop))
                 (row_replaced_inverse Dinv (W0 (l hop)) (k hop))).
  { apply (row_replaced_inverse_ok n (calc_D e) Dinv _ (M (l hop)));
      try assumption.
    - intros j Hj. exact (HW (l hop) j Hl Hj).
    - intros r c _ _. now apply calc_D_do_hop. }
  assert (Hinv' : invertible n (calc_D (do_hop e hop))) by (eexists; exact HX).
  split; [exact Hinv'|].
  assert (HY : is_inverse n (calc_D (do_hop e hop))
                 (inverse n (calc_D (do_hop e hop)))) by (apply Hlu, Hinv').
  pose proof (is_inverse_unique _ _ _ _ HY HX) as HYX.
  (* row [k_pos] of [W0] is row [k] of the identity *)
  assert (Hsrc : forall j, (j < n)%nat ->
                           W0 (k_pos hop) j = identity (k hop) j).
  { intros j Hj. rewrite (HW _ _ Hkl Hj).
    destruct HDinv as [HDX _]. rewrite <- (HDX (k hop) j Hk Hj).
    unfold mat_mul, calc_D. now rewrite Hkp. }
  intros i j Hi Hj. unfold calc_updated_W, mat_mul.
  rewrite (sum_upto_ext n _
             (fun c => M i c * Dinv c j
                       - M i c * Dinv c (k hop)
                         * ((W0 (l hop) j - identity (k hop) j)
                            / W0 (l hop) (k hop)))).
  2:{ intros c Hc. rewrite (HYX c j Hc Hj). unfold row_replaced_inverse. lra. }
  rewrite sum_upto_minus, sum_upto_scal_r.
  pose proof (HW i j Hi Hj) as E1. pose proof (HW i (k hop) Hi Hk) as E2.
  unfold mat_mul in E1, E2. fold Dinv in E1, E2. rewrite <- E1, <- E2.
  rewrite (Hsrc j Hj). field. exact Hnz.
Qed.

Lemma chk_W_same a : chk_W a a = true.
Proof.
  unfold chk_W. destruct (Req_dec a 0) as [->|Hne].
  - assert (E : Rltb (Rabs 0 + Rabs 0) f32_0_001 = true)
      by (apply Rltb_true; rewrite Rabs_R0; unfold f32_0_001; lra).
    now rewrite E.
  - replace (a / a) with 1 by (field; exact Hne).
    assert (E1 : Rltb 1 f32_1_01 = true)
      by (apply Rltb_true; unfold f32_1_01; lra).
    assert (E2 : Rltb f32_0_99 1 = true)
      by (apply Rltb_true; unfold f32_0_99; lra).
    rewrite E1, E2. apply orb_true_r.
Qed.

Lemma chk_T_same a : chk_T a a = true.
Proof.
  unfold chk_T. destruct (Req_dec a 0) as [->|Hne].
  - assert (E : Rltb (Rabs 0 + Rabs 0) f32_0_001 = true)
      by (apply Rltb_true; rewrite Rabs_R0; unfold f32_0_001; lra).
    now rewrite E.
  - replace (a / a) with 1 by (field; exact Hne).
    assert (E1 : Rltb 1 f32_1_001 = true)
      by (apply Rltb_true; unfold f32_1_001; lra).
    assert (E2 : Rltb f32_0_999 1 = true)
      by (apply Rltb_true; unfold f32_0_999; lra).
    rewrite E1, E2. apply orb_true_r.
Qed.

Lemma check_W_eq e W1 W2 :
  mat_eq (2 * L lat) (econf_N e) W1 W2 -> check_W e W1 W2 = true.
Proof.
  intros H. unfold check_W. apply forallb_forall. intros j Hj.
  apply forallb_forall. intros i Hi. apply in_seq in Hi, Hj.
  rewrite (H i j) by lia. apply chk_W_same.
Qed.

Lemma check_T_eq T1 T2 :
  vec_eq (L lat) T1 T2 -> check_T T1 T2 = true.
Proof.
  intros H. unfold check_T. apply forallb_forall. intros i Hi.
  apply in_seq in Hi. rewrite (H i) by lia. apply chk_T_same.
Qed.

(** Reads the fields of a walker written out with the setters. *)
Ltac simpl_st :=
  cbn [rng econf W T completed_mcsteps updates_since_WT_recalc
       set_rng set_econf set_W set_T set_completed_mcsteps
       set_updates_since_WT_recalc].

Lemma accept_prob_nonzero st hop :
  0 < accept_prob_of st hop -> W st (l hop) (k hop) <> 0.
Proof.
  unfold accept_prob_of. intros H E. rewrite E in H. lra.
Qed.

(** An accepted hop keeps [W] and [T] equal to their recomputation, on
    either branch of [perform_WT_update], and the cross-check of a build with
    assertions passes. *)
Lemma accept_hop_consistent st hop :
  FullPivLU_exact (econf_N (econf st)) ->
  WT_consistent st -> hop_acceptable st hop ->
  exists st',
    accept_hop st hop = Some (true, st') /\ WT_consistent st' /\
    econf_N (econf st') = econf_N (econf st) /\
    (recalc_due st = false ->
     W st' = calc_updated_W (W st) hop /\
     T st' = calc_updated_T (T st) hop).
Proof.
  intros Hlu [Hwf [Hinv [HW HT]]] [Hhop [Hposs Hp]].
  apply accept_prob_nonzero in Hp.
  destruct (calc_updated_W_exact (econf st) hop (W st)
              Hlu Hwf Hhop Hposs Hinv HW Hp) as [Hinv' HW'].
  pose proof (calc_updated_T_exact (econf st) hop (T st)
                Hwf Hhop Hposs HT) as HT'.
  pose proof (do_hop_wf (econf st) hop Hwf Hhop Hposs) as Hwf'.
  pose proof (do_hop_N (econf st) hop) as HN.
  assert (Hnew : calc_new_W (do_hop (econf st) hop) =
                 Some (mat_mul (econf_N (econf st)) M
                         (inverse (econf_N (econf st))
                                  (calc_D (do_hop (econf st) hop))))).
  { unfold calc_new_W. rewrite HN.
    destruct (Hlu _ Hinv') as [_ ->]. now destruct NDEBUG. }
  unfold accept_hop, perform_WT_update, recalc_due. simpl_st.
  rewrite Hnew.
  destruct (updates_until_WT_recalc <=? updates_since_WT_recalc st)%Z.
  - eexists. split; [reflexivity|].
    split; [|split; [exact HN | discriminate]].
    unfold WT_consistent. simpl_st.
    rewrite HN. repeat split; try assumption; apply Hwf'.
  - cbn [bind].
    assert (HW'' : mat_eq (2 * L lat) (econf_N (do_hop (econf st) hop))
                     (calc_updated_W (W st) hop)
                     (mat_mul (econf_N (econf st)) M
                        (inverse (econf_N (econf st))
                                 (calc_D (do_hop (econf st) hop)))))
      by (rewrite HN; exact HW').
    rewrite (check_W_eq _ _ _ HW''), (check_T_eq _ _ HT').
    replace (if NDEBUG then Some tt else assert true) with (Some tt)
      by (destruct NDEBUG; reflexivity).
    cbn [bind]. eexists. split; [reflexivity|].
    split; [|split; [exact HN | intros _; split; reflexivity]].
    unfold WT_consistent. simpl_st.
    rewrite HN. repeat split; try assumption; apply Hwf'.
Qed.

Lemma accept_hops_consistent hops : forall st,
  FullPivLU_exact (econf_N (econf st)) ->
  WT_consistent st -> accepted_seq st hops ->
  exists st', accept_hops st hops = Some st' /\ WT_consistent st' /\
              econf_N (econf st') = econf_N (econf st).
Proof.
  induction hops as [|hop rest IH]; intros st Hlu Hc Hacc; simpl.
  - eauto.
  - simpl in Hacc. destruct Hacc as [Hhop Hrest].
    destruct (accept_hop_consistent st hop Hlu Hc Hhop)
      as [st1 [E [Hc1 [HN _]]]].
    rewrite E in Hrest |- *. simpl in Hrest |- *.
    rewrite <- HN in Hlu.
    destruct (IH st1 Hlu Hc1 Hrest) as [st' [E' [Hc' HN']]].
    exists st'. split; [exact E'|]. split; [exact Hc'|]. now rewrite HN', HN.
Qed.

(** Up to the threshold every update of an accepted sequence is a quick one. *)
Lemma accept_hops_quick hops : forall st,
  FullPivLU_exact (econf_N (econf st)) ->
  WT_consistent st -> accepted_seq st hops ->
  (0 <= updates_since_WT_recalc st)%Z ->
  (updates_since_WT_recalc st + Z.of_nat (length hops)
   <= updates_until_WT_recalc)%Z ->
  (updates_until_WT_recalc < 2 ^ 32)%Z ->
  exists st',
    accept_hops st hops = Some st' /\ all_quick st hops /\
    W st' = fold_left calc_updated_W hops (W st) /\
    T st' = fold_left calc_updated_T hops (T st) /\
    econf st' = fold_left do_hop hops (econf st).
Proof.
  induction hops as [|hop rest IH]; intros st Hlu Hc Hacc H0 Hlen Hmax.
  - simpl. eexists. repeat split.
  - cbn [accepted_seq] in Hacc. destruct Hacc as [Hhop Hrest].
    cbn [length] in Hlen.
    assert (Hdue : recalc_due st = false)
      by (unfold recalc_due; apply Z.leb_gt; lia).
    destruct (accept_hop_consistent st hop Hlu Hc Hhop)
      as [st1 [E [Hc1 [HN Hq]]]].
    destruct (Hq Hdue) as [HW1 HT1].
    rewrite E in Hrest. cbn [snd] in Hrest.
    assert (Hcnt : updates_since_WT_recalc st1
                   = (updates_since_WT_recalc st + 1)%Z).
    { pose proof E as E'. unfold accept_hop in E'. inv_bind E'.
      inversion E'; subst a.
      apply perform_WT_update_quick in Ha; [|exact Hdue].
      rewrite Ha. cbn [updates_since_WT_recalc set_econf].
      apply wrap32_small. lia. }
    assert (He1 : econf st1 = do_hop (econf st) hop).
    { apply accept_hop_frame in E. now destruct E as [_ [-> _]]. }
    rewrite <- HN in Hlu.
    destruct (IH st1 Hlu Hc1 Hrest) as [st' [E' [Hq' [HW' [HT' He']]]]];
      [lia | lia | exact Hmax |].
    exists st'. cbn [accept_hops all_quick fold_left]. rewrite E.
    cbn [bind snd]. rewrite <- HW1, <- HT1, <- He1.
    repeat split; assumption.
Qed.

(** C1.  Start from [W] and [T] as recomputed and a counter at zero, and
    let any sequence of accepted hops no longer than the threshold go
    through the maintainer: every one of them takes the quick update, and
    the [W] and [T] so maintained (the rank-one update and the exponential
    update, hop after hop) are, entry by entry over exact arithmetic, the
    [W = M * D^-1] and the [T] that a recomputation from the resulting
    electron configuration gives. *)
Theorem incremental_WT_matches_recomputation st hops :
  FullPivLU_exact (econf_N (econf st)) ->
  WT_consistent st ->
  accepted_seq st hops ->
  updates_since_WT_recalc st = 0%Z ->
  (Z.of_nat (length hops) <= updates_until_WT_recalc < 2 ^ 32)%Z ->
  exists st' W_new,
    accept_hops st hops = Some st' /\ all_quick st hops /\
    econf st' = fold_left do_hop hops (econf st) /\
    W st' = fold_left calc_updated_W hops (W st) /\
    T st' = fold_left calc_updated_T hops (T st) /\
    calc_new_W (econf st') = Some W_new /\
    mat_eq (2 * L lat) (econf_N (econf st')) (W st') W_new /\
    vec_eq (L lat) (T st') (calc_new_T (econf st')).
Proof.
  intros Hlu Hc Hacc H0 [Hlen Hmax].
  destruct (accept_hops_quick hops st Hlu Hc Hacc)
    as [st' [E [Hq [HW [HT He]]]]]; try lia.
  destruct (accept_hops_consistent hops st Hlu Hc Hacc)
    as [st'' [E' [[Hwf [Hinv [HW' HT']]] HN]]].
  assert (st'' = st') by congruence. subst st''.
  exists st', (mat_mul (econf_N (econf st')) M
                 (inverse (econf_N (econf st')) (calc_D (econf st')))).
  repeat split; try assumption.
  unfold calc_new_W. rewrite <- HN in Hlu.
  destruct (Hlu _ Hinv) as [_ ->]. now destruct NDEBUG.
Qed.

(** The same for the Metropolis step itself, as long as the proposals are
    well formed and the acceptance draws are not negative: the step returns,
    also in a build with assertions, and keeps [W] and [T] exact. *)
Lemma metstep_consistent st :
  FullPivLU_exact (econf_N (econf st)) ->
  (forall e g, econf_wf lat e ->
               hop_wf lat e (fst (propose_random_hop e update_hop_maxdist g))) ->
  (forall g, 0 <= fst (uniform_real g)) ->
  WT_consistent st ->
  exists b st',
    metstep st = Some (b, st') /\ WT_consistent st' /\
    econf_N (econf st') = econf_N (econf st).
Proof.
  intros Hlu Hprop Hu Hc. rewrite metstep_unfold. cbv zeta.
  set (phop := fst (propose_random_hop (econf st) update_hop_maxdist (rng st))).
  set (g1 := snd (propose_random_hop (econf st) update_hop_maxdist (rng st))).
  assert (Hhop : hop_wf lat (econf st) phop) by (apply Hprop, Hc).
  destruct (possible phop) eqn:Hposs; cbn [negb].
  2:{ exists false, (set_rng st g1). repeat split; apply Hc. }
  assert (Hc1 : forall g, WT_consistent (set_rng st g)) by (intros g; exact Hc).
  destruct (Rgeb (accept_prob_of (set_rng st g1) phop) 1) eqn:E1.
  - apply Rgeb_true in E1.
    destruct (accept_hop_consistent (set_rng st g1) phop Hlu (Hc1 g1))
      as [st' [E [Hc' [HN _]]]].
    { repeat split; try assumption; try apply Hhop. lra. }
    exists true, st'. auto.
  - destruct (Rltb (fst (uniform_real g1))
                   (accept_prob_of (set_rng st g1) phop)) eqn:E2.
    + apply Rltb_true in E2. pose proof (Hu g1) as Hu1.
      destruct (accept_hop_consistent
                  (set_rng (set_rng st g1) (snd (uniform_real g1))) phop
                  Hlu (Hc1 _))
        as [st' [E [Hc' [HN _]]]].
      { repeat split; try assumption; try apply Hhop.
        change (0 < accept_prob_of (set_rng st g1) phop). lra. }
      exists true, st'. auto.
    + exists false, (set_rng (set_rng st g1) (snd (uniform_real g1))).
      repeat split; apply Hc.
Qed.


(** ** Further properties of the maintained objects *)

Ltac simpl_st_in H :=
  cbn [rng econf W T completed_mcsteps updates_since_WT_recalc
       set_rng set_econf set_W set_T set_completed_mcsteps
       set_updates_since_WT_recalc] in H.

(** X1.  A recomputed [W] satisfies [W * D = M], and its row at the position
    of electron [k] is row [k] of the identity: the amplitude ratio of moving
    an electron onto its own spin-orbital is 1, onto that of another
    electron 0. *)
Theorem calc_new_W_rows e :
  FullPivLU_exact (econf_N e) ->
  invertible (econf_N e) (calc_D e) ->
  exists W_new,
    calc_new_W e = Some W_new /\
    (forall i c, (c < econf_N e)%nat ->
                 mat_mul (econf_N e) W_new (calc_D e) i c = M i c) /\
    unit_rows e W_new.
Proof.
  intros Hlu Hinv. destruct (Hlu _ Hinv) as [[HDX HXD] Hb].
  exists (mat_mul (econf_N e) M (inverse (econf_N e) (calc_D e))).
  split; [|split].
  - unfold calc_new_W. rewrite Hb. now destruct NDEBUG.
  - intros i c Hc. rewrite mat_mul_assoc. unfold mat_mul at 1.
    rewrite (sum_upto_ext _ _ (fun c0 => M i c0 * identity c0 c))
      by (intros c0 Hc0; now rewrite (HXD c0 c Hc0 Hc)).
    now rewrite sum_upto_identity_r.
  - intros eid j He Hj. rewrite <- (HDX eid j He Hj). reflexivity.
Qed.

(** X2.  The quick update keeps the unit rows: if every electron's row of
    [W] is its row of the identity and the ratio [W(l,k)] of the hop is not
    zero, the same holds of the updated [W] for the configuration after
    the hop, whatever the other rows of [W] hold. *)
Theorem calc_updated_W_unit_rows e hop W0 :
  (k hop < econf_N e)%nat ->
  k_pos hop = get_electron_pos e (k hop) ->
  unit_rows e W0 ->
  W0 (l hop) (k hop) <> 0 ->
  unit_rows (do_hop e hop) (calc_updated_W W0 hop).
Proof.
  intros Hk Hkp Hu Hnz eid j He Hj. rewrite do_hop_N in He, Hj.
  unfold calc_updated_W, get_electron_pos, do_hop. cbn [electron_pos].
  rewrite nth_set_nth by exact Hk.
  pose proof (Hu (k hop) j Hk Hj) as Hsrc. rewrite <- Hkp in Hsrc.
  destruct (Nat.eqb_spec eid (k hop)) as [->|Hne].
  - rewrite Hsrc. field. exact Hnz.
  - pose proof (Hu eid (k hop) He Hk) as E1.
    pose proof (Hu eid j He Hj) as E2. unfold get_electron_pos in E1, E2.
    rewrite E1, E2. unfold identity at 2.
    destruct (Nat.eqb_spec eid (k hop)); [contradiction|]. field. exact Hnz.
Qed.

(** X3.  Round trip of the quick update of [W]: when the row of [W] at
    [k_pos] is row [k] of the identity and [W(l,k)] is not zero, the update
    for a hop followed by the update for the hop back gives [W] again, and
    the ratio of the hop back is the inverse of the ratio of the hop. *)
Theorem calc_updated_W_reverse W0 hop n :
  (k hop < n)%nat ->
  (forall j, (j < n)%nat -> W0 (k_pos hop) j = identity (k hop) j) ->
  W0 (l hop) (k hop) <> 0 ->
  calc_updated_W W0 hop (k_pos hop) (k hop) = / W0 (l hop) (k hop) /\
  forall i j, (j < n)%nat ->
    calc_updated_W (calc_updated_W W0 hop) (reverse_hop hop) i j = W0 i j.
Proof.
  intros Hk Hrow Hnz.
  pose proof (Hrow (k hop) Hk) as Hkk.
  unfold identity in Hkk. rewrite Nat.eqb_refl in Hkk.
  split.
  - unfold calc_updated_W. rewrite Hkk. field. exact Hnz.
  - intros i j Hj. pose proof (Hrow j Hj) as Hkj.
    unfold calc_updated_W, reverse_hop. cbn [k l k_pos].
    rewrite Hkk, Hkj. field. split; [exact Hnz|].
    intros E. apply Hnz. lra.
Qed.

(** X4.  Round trip of the quick update of [T]: the update for a hop
    followed by the update for the hop back gives [T] again, for every [T]. *)
Theorem calc_updated_T_reverse T0 hop i :
  calc_updated_T (calc_updated_T T0 hop) (reverse_hop hop) i = T0 i.
Proof.
  unfold calc_updated_T, reverse_hop. cbn [k l k_pos].
  rewrite Rmult_assoc, <- exp_plus.
  replace (v i (get_spinup_site lat (l hop))
           - v i (get_spinup_site lat (k_pos hop))
           + (v i (get_spinup_site lat (k_pos hop))
              - v i (get_spinup_site lat (l hop)))) with 0 by lra.
  rewrite exp_0. lra.
Qed.

(** X5.  For a walker whose [W] is exact, the determinant matrix of the
    configuration after a hop of electron [k] to [l] is invertible exactly
    when the ratio [W(l,k)] is not zero. *)
Theorem hop_invertible_iff e hop W0 :
  FullPivLU_exact (econf_N e) ->
  (k hop < econf_N e)%nat -> (l hop < 2 * L lat)%nat ->
  invertible (econf_N e) (calc_D e) ->
  mat_eq (2 * L lat) (econf_N e) W0
         (mat_mul (econf_N e) M (inverse (econf_N e) (calc_D e))) ->
  (invertible (econf_N e) (calc_D (do_hop e hop)) <->
   W0 (l hop) (k hop) <> 0).
Proof.
  intros Hlu Hk Hl Hinv HW.
  destruct (Hlu _ Hinv) as [HDinv _].
  set (n := econf_N e) in *. set (Dinv := inverse n (calc_D e)) in *.
  assert (Hw : forall j, (j < n)%nat ->
                 W0 (l hop) j = sum_upto n (fun c => M (l hop) c * Dinv c j))
    by (intros j Hj; exact (HW (l hop) j Hl Hj)).
  assert (HD' : forall r c, (r < n)%nat -> (c < n)%nat ->
                  calc_D (do_hop e hop) r c =
                  if Nat.eqb r (k hop) then M (l hop) c else calc_D e r c)
    by (intros r c _ _; now apply calc_D_do_hop).
  split.
  - intros [Y [_ HYD]] Hz.
    (* column [k] of [Dinv] is sent to zero by the new [D] *)
    assert (Hcol : forall r, (r < n)%nat ->
              sum_upto n (fun c => calc_D (do_hop e hop) r c * Dinv c (k hop))
              = 0).
    { intros r Hr. destruct (Nat.eqb_spec r (k hop)) as [->|Hne].
      - rewrite <- Hz, (Hw (k hop) Hk). apply sum_upto_ext. intros c Hc.
        now rewrite (HD' (k hop) c Hk Hc), Nat.eqb_refl.
      - destruct HDinv as [HDX _]. specialize (HDX r (k hop) Hr Hk).
        unfold mat_mul in HDX. unfold identity in HDX.
        destruct (Nat.eqb_spec r (k hop)); [contradiction|].
        rewrite <- HDX. apply sum_upto_ext. intros c Hc.
        rewrite (HD' r c Hr Hc).
        destruct (Nat.eqb_spec r (k hop)); [contradiction | reflexivity]. }
    assert (Hx : forall c, (c < n)%nat -> Dinv c (k hop) = 0).
    { intros c Hc.
      rewrite <- (sum_upto_identity_l n c (fun r => Dinv r (k hop)) Hc).
      rewrite (sum_upto_ext n _
                 (fun r => sum_upto n
                             (fun c' => Y c c' * calc_D (do_hop e hop) c' r
                                        * Dinv r (k hop)))).
      2:{ intros r Hr. rewrite <- (HYD c r Hc Hr). unfold mat_mul.
          now rewrite sum_upto_scal_r. }
      rewrite sum_upto_swap. apply sum_upto_zero. intros c' Hc'.
      rewrite (sum_upto_ext n _
                 (fun r => Y c c'
                           * (calc_D (do_hop e hop) c' r * Dinv r (k hop))))
        by (intros; lra).
      rewrite sum_upto_scal_l, (Hcol c' Hc'). lra. }
    destruct HDinv as [HDX _]. specialize (HDX (k hop) (k hop) Hk Hk).
    unfold mat_mul, identity in HDX. rewrite Nat.eqb_refl in HDX.
    rewrite sum_upto_zero in HDX; [lra|].
    intros c Hc. rewrite (Hx c Hc). lra.
  - intros Hnz.
    exists (row_replaced_inverse Dinv (W0 (l hop)) (k hop)).
    apply (row_replaced_inverse_ok n (calc_D e) Dinv _ (M (l hop)));
      assumption.
Qed.

(** X6.  The acceptance probability is never negative, and a proposal whose
    ratio [W(l,k)] is zero is never accepted (the draws being in [0,1)): the
    step returns [false]. *)
Theorem metstep_zero_ratio_rejected st :
  (forall g, 0 <= fst (uniform_real g)) ->
  (forall hop, 0 <= accept_prob_of st hop) /\
  (let phop :=
     fst (propose_random_hop (econf st) update_hop_maxdist (rng st)) in
   W st (l phop) (k phop) = 0 ->
   exists st', metstep st = Some (false, st')).
Proof.
  intros Hu. split.
  - intros hop. unfold accept_prob_of.
    set (r := R_j_of st (l hop) (k_pos hop)). set (w := W st (l hop) (k hop)).
    replace (r * r * w * w) with ((r * w) * (r * w)) by ring. nra.
  - intros phop Hz. rewrite metstep_unfold. cbv zeta. fold phop.
    set (g1 := snd (propose_random_hop (econf st) update_hop_maxdist
                                       (rng st))).
    destruct (negb (possible phop)); [eauto|].
    assert (Hp : accept_prob_of (set_rng st g1) phop = 0).
    { unfold accept_prob_of. simpl_st. rewrite Hz. ring. }
    rewrite Hp.
    assert (E1 : Rgeb 0 1 = false) by (apply Rgeb_false; lra).
    assert (E2 : Rltb (fst (uniform_real g1)) 0 = false)
      by (apply Rltb_false; apply Hu).
    rewrite E1, E2. eauto.
Qed.

(** X7.  A Metropolis step that returns [true] had a feasible proposal and
    has committed exactly that hop: the configuration is the old one with
    the electron moved, the number of electrons and the sweep counter are
    as before, and the counter of quick updates is zero after a
    recomputation and one more than before after a quick update. *)
Theorem metstep_accepted_effect st st' :
  metstep st = Some (true, st') ->
  let phop := fst (propose_random_hop (econf st) update_hop_maxdist (rng st)) in
  possible phop = true /\
  econf st' = do_hop (econf st) phop /\
  econf_N (econf st') = econf_N (econf st) /\
  completed_mcsteps st' = completed_mcsteps st /\
  updates_since_WT_recalc st' =
  (if recalc_due st then 0%Z
   else wrap32 (updates_since_WT_recalc st + 1)).
Proof.
  intros H phop.
  assert (Hacc : forall g, accept_hop (set_rng st g) phop = Some (true, st') ->
            econf st' = do_hop (econf st) phop /\
            econf_N (econf st') = econf_N (econf st) /\
            completed_mcsteps st' = completed_mcsteps st /\
            updates_since_WT_recalc st' =
            (if recalc_due st then 0%Z
             else wrap32 (updates_since_WT_recalc st + 1))).
  { intros g Ha. pose proof (accept_hop_frame _ _ _ _ Ha) as [_ [He Hc]].
    simpl_st. simpl_st_in He. simpl_st_in Hc.
    split; [exact He|]. split; [rewrite He; apply do_hop_N|].
    split; [exact Hc|].
    unfold accept_hop in Ha. inv_bind Ha. inversion Ha; subst a.
    destruct (recalc_due st) eqn:E.
    - rewrite perform_WT_update_recalc in Ha0 by exact E.
      inv_bind Ha0. inversion Ha0. reflexivity.
    - apply perform_WT_update_quick in Ha0; [|exact E].
      rewrite Ha0. reflexivity. }
  rewrite metstep_unfold in H. cbv zeta in H. fold phop in H.
  destruct (possible phop); cbn [negb] in H; [|discriminate].
  split; [reflexivity|].
  destruct (Rgeb _ _); [exact (Hacc _ H)|].
  destruct (Rltb _ _); [|discriminate].
  exact (Hacc _ H).
Qed.

Lemma metstep_keeps_exact n st :
  exact_environment n -> WT_consistent st -> econf_N (econf st) = n ->
  exists b st',
    metstep st = Some (b, st') /\ WT_consistent st' /\
    econf_N (econf st') = n.
Proof.
  intros [Hlu [Hprop Hu]] Hc HN. rewrite <- HN in Hlu.
  rewrite metstep_unfold. cbv zeta.
  set (phop := fst (propose_random_hop (econf st) update_hop_maxdist (rng st))).
  set (g1 := snd (propose_random_hop (econf st) update_hop_maxdist (rng st))).
  assert (Hhop : hop_wf lat (econf st) phop)
    by (apply Hprop; [apply Hc | exact HN]).
  destruct (possible phop) eqn:Hposs; cbn [negb].
  2:{ exists false, (set_rng st g1). repeat split; try apply Hc. exact HN. }
  assert (Hc1 : forall g, WT_consistent (set_rng st g)) by (intros g; exact Hc).
  destruct (Rgeb (accept_prob_of (set_rng st g1) phop) 1) eqn:E1.
  - apply Rgeb_true in E1.
    destruct (accept_hop_consistent (set_rng st g1) phop Hlu (Hc1 g1))
      as [st' [E [Hc' [HN' _]]]].
    { repeat split; try assumption; try apply Hhop. lra. }
    exists true, st'. simpl_st_in HN'. rewrite HN in HN'. auto.
  - destruct (Rltb (fst (uniform_real g1))
                   (accept_prob_of (set_rng st g1) phop)) eqn:E2.
    + apply Rltb_true in E2. pose proof (Hu g1) as Hu1.
      destruct (accept_hop_consistent
                  (set_rng (set_rng st g1) (snd (uniform_real g1))) phop
                  Hlu (Hc1 _))
        as [st' [E [Hc' [HN' _]]]].
      { repeat split; try assumption; try apply Hhop.
        change (0 < accept_prob_of (set_rng st g1) phop). lra. }
      exists true, st'. simpl_st_in HN'. rewrite HN in HN'. auto.
    + exists false, (set_rng (set_rng st g1) (snd (uniform_real g1))).
      repeat split; try apply Hc. exact HN.
Qed.

Lemma metsteps_keep_exact n m : forall st,
  exact_environment n -> WT_consistent st -> econf_N (econf st) = n ->
  exists st', metsteps m st = Some st' /\ WT_consistent st' /\
              econf_N (econf st') = n.
Proof.
  induction m as [|m IH]; intros st Henv Hc HN; simpl; [eauto|].
  destruct (metstep_keeps_exact n st Henv Hc HN) as [b [st1 [E [Hc1 HN1]]]].
  rewrite E. simpl. now apply IH.
Qed.

Lemma mcs_keeps_exact n st :
  exact_environment n -> WT_consistent st -> econf_N (econf st) = n ->
  exists st', mcs st = Some st' /\ WT_consistent st' /\
              econf_N (econf st') = n.
Proof.
  intros Henv Hc HN. unfold mcs.
  destruct (metsteps_keep_exact n (econf_N (econf st)) st Henv Hc HN)
    as [st1 [E [Hc1 HN1]]].
  rewrite E. simpl. eexists. split; [reflexivity|]. split; assumption.
Qed.

Lemma sweeps_keep_exact n m : forall st,
  exact_environment n -> WT_consistent st -> econf_N (econf st) = n ->
  exists st', sweeps m st = Some st' /\ WT_consistent st' /\
              econf_N (econf st') = n.
Proof.
  induction m as [|m IH]; intros st Henv Hc HN; simpl; [eauto|].
  destruct (mcs_keeps_exact n st Henv Hc HN) as [st1 [E [Hc1 HN1]]].
  rewrite E. simpl. now apply IH.
Qed.

(** X8.  Over exact arithmetic no assertion of the walk ever fails and [W]
    and [T] never leave their exact values: from a walker whose [W] and [T]
    are as recomputed, a Metropolis step, a sweep and an equilibration of
    any length all return, in a build with assertions too, with [W] and [T]
    as a recomputation from the new configuration gives them, a valid
    configuration and the same number of electrons. *)
Theorem walk_keeps_WT_exact st :
  exact_environment (econf_N (econf st)) ->
  WT_consistent st ->
  (exists b st', metstep st = Some (b, st') /\ WT_consistent st' /\
                 econf_N (econf st') = econf_N (econf st)) /\
  (exists st', mcs st = Some st' /\ WT_consistent st' /\
               econf_N (econf st') = econf_N (econf st)) /\
  (forall N_mcs_equil,
      exists st', equilibrate N_mcs_equil st = Some st' /\
                  WT_consistent st' /\
                  econf_N (econf st') = econf_N (econf st)).
Proof.
  intros Henv Hc. split; [|split].
  - now apply metstep_keeps_exact.
  - now apply mcs_keeps_exact.
  - intros m. unfold equilibrate.
    destruct (sweeps_keep_exact _ m st Henv Hc eq_refl) as [st1 [E [Hc1 HN1]]].
    rewrite E. simpl. eexists. split; [reflexivity|]. split; assumption.
Qed.

Lemma resample_result fuel : forall e g e' g',
  (forall e0 g0, econf_N e0 = N_init ->
                 econf_wf lat (fst (distribute_random e0 g0)) /\
                 econf_N (fst (distribute_random e0 g0)) = N_init) ->
  econf_N e = N_init ->
  resample fuel e g = Some (e', g') ->
  econf_wf lat e' /\ econf_N e' = N_init /\
  isInvertible (econf_N e') (calc_D e') = true.
Proof.
  induction fuel as [|fuel IH]; intros e g e' g' Hd HN H; simpl in H.
  - discriminate.
  - pose proof (Hd e g HN) as [Hwf HN1].
    destruct (distribute_random e g) as [e1 g1]. simpl in Hwf, HN1.
    destruct (isInvertible (econf_N e1) (calc_D e1)) eqn:E.
    + inversion H; subst. auto.
    + now apply (IH e1 g1 e' g').
Qed.

(** X9.  The constructor returns only with an invertible [D]: whenever it
    returns, [W] and [T] are the exact values for the configuration it
    settled on, that configuration is valid with [N_init] electrons, and
    both counters are zero. *)
Theorem construct_consistent fuel g st :
  FullPivLU_exact N_init ->
  (forall D, isInvertible N_init D = true -> invertible N_init D) ->
  (forall g0, econf_wf lat (fst (econf_init lat N_init g0)) /\
              econf_N (fst (econf_init lat N_init g0)) = N_init) ->
  (forall e0 g0, econf_N e0 = N_init ->
                 econf_wf lat (fst (distribute_random e0 g0)) /\
                 econf_N (fst (distribute_random e0 g0)) = N_init) ->
  construct fuel g = Some st ->
  WT_consistent st /\ econf_N (econf st) = N_init /\
  isInvertible N_init (calc_D (econf st)) = true /\
  completed_mcsteps st = 0%Z /\ updates_since_WT_recalc st = 0%Z.
Proof.
  intros Hlu Hsound Hinit Hdist H. unfold construct in H.
  pose proof (Hinit g) as [Hwf0 HN0].
  destruct (econf_init lat N_init g) as [e0 g0]. simpl in Hwf0, HN0.
  inv_bind H. destruct a as [e g']. inversion H; subst st. clear H.
  assert (He : econf_wf lat e /\ econf_N e = N_init /\
               isInvertible (econf_N e) (calc_D e) = true).
  { destruct (isInvertible (econf_N e0) (calc_D e0)) eqn:E.
    - inversion Ha; subst. auto.
    - now apply (resample_result fuel e0 g0 e g'). }
  destruct He as [Hwf [HN Hb]]. simpl_st. rewrite HN in Hb.
  repeat split; try assumption; try apply Hwf.
  - unfold WT_consistent. simpl_st. rewrite HN. now apply Hsound.
Qed.

Lemma invertible_after_S n e g :
  invertible_after (S n) e g =
  invertible_after n (fst (distribute_random e g))
                   (snd (distribute_random e g)).
Proof.
  unfold invertible_after. cbn [resampled].
  now destruct (distribute_random e g).
Qed.

Lemma resampled_S n e g :
  resampled (S n) e g =
  resampled n (fst (distribute_random e g)) (snd (distribute_random e g)).
Proof. cbn [resampled]. now destruct (distribute_random e g). Qed.

(** The loop stops at the first resampling with an invertible [D]. *)
Lemma resample_first_hit fuel : forall e g n,
  (1 <= n <= fuel)%nat ->
  (forall i, (1 <= i < n)%nat -> invertible_after i e g = false) ->
  invertible_after n e g = true ->
  resample fuel e g = Some (resampled n e g).
Proof.
  induction fuel as [|fuel IH]; intros e g n Hn Hlo Hhit; [lia|].
  destruct n as [|n]; [lia|].
  rewrite resampled_S. rewrite invertible_after_S in Hhit.
  cbn [resample].
  destruct (distribute_random e g) as [e1 g1] eqn:Ed. cbn [fst snd] in *.
  destruct n as [|n].
  - unfold invertible_after in Hhit. cbn [resampled fst] in Hhit.
    rewrite Hhit. reflexivity.
  - assert (H1 : invertible_after 1 e g = false) by (apply Hlo; lia).
    rewrite invertible_after_S, Ed in H1.
    unfold invertible_after in H1. cbn [resampled fst snd] in H1.
    rewrite H1. apply IH; [lia | | exact Hhit].
    intros i Hi. specialize (Hlo (S i)).
    rewrite invertible_after_S, Ed in Hlo. apply Hlo. lia.
Qed.

Lemma resample_no_hit fuel : forall e g,
  (forall i, (1 <= i <= fuel)%nat -> invertible_after i e g = false) ->
  resample fuel e g = None.
Proof.
  induction fuel as [|fuel IH]; intros e g Hlo; [reflexivity|].
  cbn [resample].
  assert (H1 : invertible_after 1 e g = false) by (apply Hlo; lia).
  rewrite invertible_after_S in H1.
  destruct (distribute_random e g) as [e1 g1] eqn:Ed. cbn [fst snd] in H1.
  unfold invertible_after in H1. cbn [resampled fst] in H1. rewrite H1.
  apply IH. intros i Hi. specialize (Hlo (S i)).
  rewrite invertible_after_S, Ed in Hlo. apply Hlo. lia.
Qed.

(** Within [fuel] resamplings there is a first one with an invertible [D],
    or there is none. *)
Lemma first_hit_or_none (f : nat -> bool) fuel :
  (exists n, (n <= fuel)%nat /\ f n = true /\
             forall i, (i < n)%nat -> f i = false) \/
  (forall i, (i <= fuel)%nat -> f i = false).
Proof.
  induction fuel as [|fuel [[n [Hn [Hh Hlo]]]|Hnone]].
  - destruct (f 0%nat) eqn:E.
    + left. exists 0%nat. repeat split; [lia | exact E | intros; lia].
    + right. intros i Hi. assert (i = 0%nat) by lia. now subst.
  - left. exists n. repeat split; [lia | exact Hh | exact Hlo].
  - destruct (f (S fuel)) eqn:E.
    + left. exists (S fuel). repeat split; [lia | exact E|].
      intros i Hi. apply Hnone. lia.
    + right. intros i Hi.
      destruct (Nat.eq_dec i (S fuel)) as [->|]; [exact E|].
      apply Hnone. lia.
Qed.

Lemma construct_first_hit g fuel n :
  let e0 := fst (econf_init lat N_init g) in
  let g0 := snd (econf_init lat N_init g) in
  (n <= fuel)%nat ->
  invertible_after n e0 g0 = true ->
  (forall i, (i < n)%nat -> invertible_after i e0 g0 = false) ->
  construct fuel g = Some (initial_walker (resampled n e0 g0)).
Proof.
  intros e0 g0 Hn Hhit Hlo. unfold construct. subst e0 g0.
  destruct (econf_init lat N_init g) as [e0 g0]. cbn [fst snd] in *.
  destruct n as [|n].
  - unfold invertible_after in Hhit. cbn [resampled fst] in Hhit.
    rewrite Hhit. reflexivity.
  - assert (H0 : invertible_after 0 e0 g0 = false) by (apply Hlo; lia).
    unfold invertible_after in H0. cbn [resampled fst] in H0. rewrite H0.
    rewrite (resample_first_hit fuel e0 g0 (S n));
      [| lia | intros i Hi; apply Hlo; lia | exact Hhit].
    cbn [bind]. now destruct (resampled (S n) e0 g0).
Qed.

Lemma construct_no_hit g fuel :
  let e0 := fst (econf_init lat N_init g) in
  let g0 := snd (econf_init lat N_init g) in
  (forall i, (i <= fuel)%nat -> invertible_after i e0 g0 = false) ->
  construct fuel g = None.
Proof.
  intros e0 g0 Hnone. unfold construct. subst e0 g0.
  destruct (econf_init lat N_init g) as [e0 g0]. cbn [fst snd] in *.
  assert (H0 : invertible_after 0 e0 g0 = false) by (apply Hnone; lia).
  unfold invertible_after in H0. cbn [resampled fst] in H0. rewrite H0.
  rewrite resample_no_hit; [reflexivity|].
  intros i Hi. apply Hnone. lia.
Qed.

(** X10.  The constructor settles on the first configuration of the
    resampling sequence whose [D] is invertible: if the configuration after
    [n] resamplings is the first such, the walker is set up on it, with the
    generator as those [n] resamplings left it, provided the loop is given
    [n] rounds; every walker the constructor returns is of this kind; and
    as long as no configuration has an invertible [D] the loop goes on. *)
Theorem construct_first_invertible g fuel :
  let e0 := fst (econf_init lat N_init g) in
  let g0 := snd (econf_init lat N_init g) in
  (forall n, (n <= fuel)%nat ->
             invertible_after n e0 g0 = true ->
             (forall i, (i < n)%nat -> invertible_after i e0 g0 = false) ->
             construct fuel g = Some (initial_walker (resampled n e0 g0))) /\
  (forall st, construct fuel g = Some st ->
              exists n, (n <= fuel)%nat /\
                        invertible_after n e0 g0 = true /\
                        (forall i, (i < n)%nat ->
                                   invertible_after i e0 g0 = false) /\
                        st = initial_walker (resampled n e0 g0)) /\
  (construct fuel g = None <->
   forall i, (i <= fuel)%nat -> invertible_after i e0 g0 = false).
Proof.
  intros e0 g0.
  assert (Hhit : forall n, (n <= fuel)%nat ->
             invertible_after n e0 g0 = true ->
             (forall i, (i < n)%nat -> invertible_after i e0 g0 = false) ->
             construct fuel g = Some (initial_walker (resampled n e0 g0)))
    by (intros n; apply construct_first_hit).
  split; [exact Hhit|]. split.
  - intros st H.
    destruct (first_hit_or_none (fun i => invertible_after i e0 g0) fuel)
      as [[n [Hn [Hh Hlo]]]|Hnone].
    + exists n. repeat split; try assumption.
      rewrite (Hhit n Hn Hh Hlo) in H. now inversion H.
    + rewrite (construct_no_hit g fuel Hnone) in H. discriminate.
  - split.
    + intros H.
      destruct (first_hit_or_none (fun i => invertible_after i e0 g0) fuel)
        as [[n [Hn [Hh Hlo]]]|Hnone]; [|exact Hnone].
      rewrite (Hhit n Hn Hh Hlo) in H. discriminate.
    + apply construct_no_hit.
Qed.

(** The sweep counter is carried along, never read. *)
Lemma perform_WT_update_set_completed st hop c :
  perform_WT_update (set_completed_mcsteps st c) hop =
  (st' <- perform_WT_update st hop ;; Some (set_completed_mcsteps st' c)).
Proof.
  unfold perform_WT_update. simpl_st.
  destruct (updates_until_WT_recalc <=? updates_since_WT_recalc st)%Z.
  - destruct (calc_new_W (econf st)); reflexivity.
  - destruct NDEBUG; cbn [bind].
    + reflexivity.
    + destruct (calc_new_W (econf st)); cbn [bind]; [|reflexivity].
      destruct (check_W _ _ _); cbn [assert bind]; [|reflexivity].
      destruct (check_T _ _); reflexivity.
Qed.

Lemma accept_hop_set_completed st hop c :
  accept_hop (set_completed_mcsteps st c) hop =
  (r <- accept_hop st hop ;;
   Some (fst r, set_completed_mcsteps (snd r) c)).
Proof.
  unfold accept_hop.
  change (set_econf (set_completed_mcsteps st c)
                    (do_hop (econf (set_completed_mcsteps st c)) hop))
    with (set_completed_mcsteps (set_econf st (do_hop (econf st) hop)) c).
  rewrite perform_WT_update_set_completed.
  destruct (perform_WT_update _ hop); reflexivity.
Qed.

Lemma metstep_set_completed st c :
  metstep (set_completed_mcsteps st c) =
  (r <- metstep st ;; Some (fst r, set_completed_mcsteps (snd r) c)).
Proof.
  rewrite !metstep_unfold. cbv zeta. simpl_st.
  destruct (negb (possible _)); [reflexivity|].
  change (accept_prob_of
            (set_rng (set_completed_mcsteps st c)
               (snd (propose_random_hop (econf st) update_hop_maxdist
                                        (rng st))))
            (fst (propose_random_hop (econf st) update_hop_maxdist (rng st))))
    with (accept_prob_of
            (set_rng st
               (snd (propose_random_hop (econf st) update_hop_maxdist
                                        (rng st))))
            (fst (propose_random_hop (econf st) update_hop_maxdist (rng st)))).
  destruct (Rgeb _ _).
  { exact (accept_hop_set_completed (set_rng st _) _ c). }
  destruct (Rltb _ _); [|reflexivity].
  exact (accept_hop_set_completed (set_rng (set_rng st _) _) _ c).
Qed.

Lemma metsteps_set_completed n : forall st c,
  metsteps n (set_completed_mcsteps st c) =
  (st' <- metsteps n st ;; Some (set_completed_mcsteps st' c)).
Proof.
  induction n as [|n IH]; intros st c; simpl; [reflexivity|].
  rewrite metstep_set_completed.
  destruct (metstep st) as [[b st1]|]; simpl; [apply IH | reflexivity].
Qed.

(** What a run of sweeps leaves, the sweep counter apart. *)
Lemma sweeps_forget n c0 : forall st c,
  (st' <- sweeps n (set_completed_mcsteps st c) ;;
   Some (set_completed_mcsteps st' c0)) =
  (st' <- sweeps n st ;; Some (set_completed_mcsteps st' c0)).
Proof.
  induction n as [|n IH]; intros st c; [reflexivity|].
  cbn [sweeps]. unfold mcs. simpl_st.
  rewrite metsteps_set_completed.
  destruct (metsteps (econf_N (econf st)) st) as [st1|]; [|reflexivity].
  cbn [bind].
  transitivity (st' <- sweeps n st1 ;; Some (set_completed_mcsteps st' c0)).
  - exact (IH st1 (wrap64 (c + 1))).
  - symmetry. exact (IH st1 (wrap64 (completed_mcsteps st1 + 1))).
Qed.

Lemma sweeps_app a b : forall st,
  sweeps (a + b) st = (st1 <- sweeps a st ;; sweeps b st1).
Proof.
  induction a as [|a IH]; intros st; simpl; [reflexivity|].
  destruct (mcs st) as [st1|]; simpl; [apply IH | reflexivity].
Qed.

Lemma sweeps_completed_mod n : forall st st',
  sweeps n st = Some st' ->
  wrap64 (completed_mcsteps st') =
  wrap64 (completed_mcsteps st + Z.of_nat n).
Proof.
  induction n as [|n IH]; intros st st' H.
  - simpl in H. inversion H; subst. now rewrite Z.add_0_r.
  - simpl in H. inv_bind H. rewrite (IH a st' H).
    rewrite (mcs_completed _ _ Ha). unfold wrap64.
    rewrite Zplus_mod_idemp_l. f_equal. lia.
Qed.

(** An equilibration is its sweeps with the counter put back. *)
Lemma equilibrate_as_sweeps n st :
  equilibrate n st =
  (st1 <- sweeps n st ;;
   Some (set_completed_mcsteps st1 (wrap64 (completed_mcsteps st)))).
Proof.
  unfold equilibrate. destruct (sweeps n st) as [st1|] eqn:E; [|reflexivity].
  cbn [bind]. do 2 f_equal.
  pose proof (sweeps_completed_mod n st st1 E) as Hc. unfold wrap64 in *.
  rewrite <- Zminus_mod_idemp_l, Hc, Zminus_mod_idemp_l. f_equal. lia.
Qed.

(** X11.  Equilibrations compose: [equilibrate(a + b)] leaves the walker
    that [equilibrate(a)] followed by [equilibrate(b)] leaves, and fails
    when one of them does; [equilibrate(0)] changes nothing. *)
Theorem equilibrate_compose a b st :
  equilibrate (a + b) st = (st1 <- equilibrate a st ;; equilibrate b st1) /\
  ((0 <= completed_mcsteps st < 2 ^ 64)%Z -> equilibrate 0 st = Some st).
Proof.
  split.
  - rewrite (equilibrate_as_sweeps (a + b)), (equilibrate_as_sweeps a).
    rewrite sweeps_app.
    destruct (sweeps a st) as [st1|]; [|reflexivity]. cbn [bind].
    rewrite equilibrate_as_sweeps. simpl_st.
    replace (wrap64 (wrap64 (completed_mcsteps st)))
      with (wrap64 (completed_mcsteps st))
      by (unfold wrap64; now rewrite Z.mod_mod by lia).
    symmetry. apply sweeps_forget.
  - intros Hr. rewrite equilibrate_as_sweeps. cbn [sweeps bind].
    unfold wrap64. rewrite Z.mod_small by exact Hr. now destruct st.
Qed.

Lemma metsteps_econf_N n : forall st st',
  metsteps n st = Some st' -> econf_N (econf st') = econf_N (econf st).
Proof.
  induction n as [|n IH]; simpl; intros st st' H.
  - now inversion H.
  - inv_bind H. destruct a as [b st1]. simpl in H.
    rewrite (IH st1 st' H). clear IH H.
    rewrite metstep_unfold in Ha. cbv zeta in Ha.
    destruct (negb (possible _)); [now inversion Ha|].
    destruct (Rgeb _ _).
    { apply accept_hop_frame in Ha. destruct Ha as [_ [-> _]].
      apply do_hop_N. }
    destruct (Rltb _ _).
    { apply accept_hop_frame in Ha. destruct Ha as [_ [-> _]].
      apply do_hop_N. }
    now inversion Ha.
Qed.

(** X12.  A sweep adds one to the sweep counter modulo 2^64 (from 2^64 - 1
    it goes to 0), its Metropolis steps leaving the counter alone, and it
    leaves the number of electrons as it was. *)
Theorem mcs_effect st st' :
  mcs st = Some st' ->
  mctime st' = wrap64 (mctime st + 1) /\
  (mctime st = (2 ^ 64 - 1)%Z -> mctime st' = 0%Z) /\
  ((0 <= mctime st < 2 ^ 64 - 1)%Z -> mctime st' = (mctime st + 1)%Z) /\
  econf_N (econf st') = econf_N (econf st).
Proof.
  intros H. pose proof (mcs_completed _ _ H) as Hc. unfold mctime.
  split; [exact Hc|]. split; [|split].
  - intros E. rewrite Hc, E. reflexivity.
  - intros Hr. rewrite Hc. unfold wrap64. apply Z.mod_small. lia.
  - unfold mcs in H. inv_bind H. inversion H; subst st'. simpl_st.
    now apply metsteps_econf_N with (n := econf_N (econf st)).
Qed.

(** ** Relabelling the electrons *)

Lemma get_site_occ_same_sites e e' :
  (forall s, In s (electron_pos e) <-> In s (electron_pos e')) ->
  forall s, get_site_occ e s = get_site_occ e' s.
Proof.
  intros H s.
  destruct (get_site_occ e s) eqn:E1; destruct (get_site_occ e' s) eqn:E2;
    try reflexivity.
  - apply get_site_occ_full in E2. apply H in E2.
    apply get_site_occ_full in E2. congruence.
  - apply get_site_occ_full in E1. apply H in E1.
    apply get_site_occ_full in E1. congruence.
Qed.

Lemma get_num_dblocc_same_sites e e' :
  (forall s, get_site_occ e s = get_site_occ e' s) ->
  get_num_dblocc lat e = get_num_dblocc lat e'.
Proof.
  intros H. unfold get_num_dblocc. f_equal. apply filter_ext.
  intros j. now rewrite !H.
Qed.

(** X13.  [T] and the number of doubly occupied sites depend on which
    spin-orbitals are occupied only, not on which electron sits where: two
    configurations that are permutations of one another have the same
    recomputed [T] and the same double occupancy. *)
Theorem calc_new_T_relabel e e' :
  Permutation (electron_pos e) (electron_pos e') ->
  (forall i, calc_new_T e i = calc_new_T e' i) /\
  get_num_dblocc lat e = get_num_dblocc lat e'.
Proof.
  intros Hp.
  assert (Hocc : forall s, get_site_occ e s = get_site_occ e' s).
  { apply get_site_occ_same_sites. intros s. split; intros Hin.
    - exact (Permutation_in s Hp Hin).
    - exact (Permutation_in s (Permutation_sym Hp) Hin). }
  split.
  - intros i. rewrite !calc_new_T_sum. f_equal. apply sum_upto_ext.
    intros j _. unfold occ_R. now rewrite !Hocc.
  - now apply get_num_dblocc_same_sites.
Qed.

Lemma fold_left_pointwise {A B : Type} (f g : A -> B -> A) xs : forall a,
  (forall a0 x, f a0 x = g a0 x) -> fold_left f xs a = fold_left g xs a.
Proof.
  induction xs as [|x xs IH]; intros a H; simpl; [reflexivity|].
  rewrite H. now apply IH.
Qed.

Lemma list_sum_Permutation xs ys :
  Permutation xs ys -> list_sum xs = list_sum ys.
Proof.
  induction 1; simpl; lra.
Qed.

Lemma map_nth_seq (xs : list nat) :
  map (fun i => nth i xs O) (seq 0 (length xs)) = xs.
Proof.
  induction xs as [|x xs IH]; simpl; [reflexivity|].
  f_equal. rewrite <- seq_shift, map_map. exact IH.
Qed.

Lemma E_l_shells_relabel st st' k1 k2 p E :
  (forall s, get_site_occ (econf st') s = get_site_occ (econf st) s) ->
  (forall i, T st' i = T st i) ->
  (forall i, W st' i k1 = W st i k2) ->
  E_l_shells st' k1 p E = E_l_shells st k2 p E.
Proof.
  intros Hocc HT HW. unfold E_l_shells. apply fold_left_pointwise.
  intros a X. destruct (Reqb _ _); [reflexivity|]. f_equal. f_equal.
  unfold E_l_shell. apply fold_left_pointwise. intros b s.
  now rewrite Hocc, !HT, HW.
Qed.

(** X14.  The local energy does not depend on the numbering of the
    electrons: renumber them by a permutation [sigma], the columns of [W]
    with them, and [E_l] is the same. *)
Theorem E_l_relabel st st' sigma :
  Permutation sigma (seq 0 (econf_N (econf st))) ->
  electron_pos (econf st') = map (get_electron_pos (econf st)) sigma ->
  (forall i k_, (k_ < econf_N (econf st))%nat ->
                W st' i k_ = W st i (nth k_ sigma O)) ->
  (forall i, T st' i = T st i) ->
  E_l st' = E_l st.
Proof.
  intros Hsig Hpos HW HT.
  assert (Hlen : length sigma = econf_N (econf st))
    by (rewrite (Permutation_length Hsig); apply length_seq).
  assert (HN : econf_N (econf st') = econf_N (econf st))
    by (unfold econf_N at 1; now rewrite Hpos, length_map).
  assert (Hperm : Permutation (electron_pos (econf st'))
                              (electron_pos (econf st))).
  { rewrite Hpos.
    assert (E : map (get_electron_pos (econf st))
                    (seq 0 (econf_N (econf st))) = electron_pos (econf st))
      by exact (map_nth_seq _).
    apply (Permutation_map (get_electron_pos (econf st))) in Hsig.
    now rewrite E in Hsig. }
  assert (Hocc : forall s, get_site_occ (econf st') s
                           = get_site_occ (econf st) s).
  { apply get_site_occ_same_sites. intros s. split; intros Hin.
    - exact (Permutation_in s Hperm Hin).
    - exact (Permutation_in s (Permutation_sym Hperm) Hin). }
  unfold E_l. rewrite !E_l_electrons_sum
    by (apply Forall_forall; intros x Hx; apply in_seq in Hx; lia).
  cbn [bind]. rewrite (get_num_dblocc_same_sites _ _ Hocc), HN.
  do 3 f_equal. rewrite !Rplus_0_l.
  set (g := fun k_ => E_l_shells st k_ (get_electron_pos (econf st) k_) 0).
  transitivity (list_sum (map g sigma)).
  - f_equal.
    replace (map g sigma)
      with (map g (map (fun i => nth i sigma O)
                       (seq 0 (econf_N (econf st)))))
      by (rewrite <- Hlen, map_nth_seq; reflexivity).
    rewrite map_map. apply map_ext_in. intros k_ Hk. apply in_seq in Hk. unfold g.
    assert (Hp : get_electron_pos (econf st') k_
                 = get_electron_pos (econf st) (nth k_ sigma O)).
    { unfold get_electron_pos at 1. rewrite Hpos.
      rewrite (nth_indep _ O (get_electron_pos (econf st) O))
        by (rewrite length_map; lia).
      apply map_nth. }
    rewrite Hp. apply E_l_shells_relabel; try assumption.
    intros i. apply HW. lia.
  - apply list_sum_Permutation. now apply Permutation_map.
Qed.

Lemma nth_all_zero (xs : list R) i :
  Forall (fun x => x = 0) xs -> nth i xs 0 = 0.
Proof.
  intros H. revert i. induction H as [|x xs Hx _ IH]; intros [|i]; simpl;
    auto.
Qed.

(** X15.  Without hopping amplitudes, or with all of them zero, the local
    energy is the interaction term alone, [U * double occupancies / L],
    whatever [W] and [T] hold. *)
Theorem E_l_no_hopping st :
  Forall (fun x => x = 0) t ->
  E_l st = Some (U * INR (get_num_dblocc lat (econf st)) / INR (L lat)).
Proof.
  intros Ht. unfold E_l. rewrite E_l_electrons_sum
    by (apply Forall_forall; intros x Hx; apply in_seq in Hx; lia).
  cbn [bind]. do 2 f_equal.
  assert (Hz : forall ks,
             list_sum (map (fun k_ => E_l_shells st k_
                                        (get_electron_pos (econf st) k_) 0)
                           ks) = 0).
  { induction ks as [|k_ ks IH]; simpl; [reflexivity|].
    rewrite IH, E_l_shells_sum.
    assert (Hf : filter (fun X => negb (Reqb (nth (X - 1) t 0) 0))
                        (seq 1 (length t)) = []).
    { generalize (seq 1 (length t)). intros xs.
      induction xs as [|X xs IHx]; simpl; [reflexivity|].
      rewrite (nth_all_zero t (X - 1) Ht).
      assert (E : Reqb 0 0 = true)
        by (unfold Reqb; destruct (Req_dec_T 0 0); [reflexivity | lra]).
      rewrite E. exact IHx. }
    rewrite Hf. simpl. lra. }
  rewrite Hz. lra.
Qed.

(** ** Tolerances *)

(** The window of the quotient [w / c].  A quotient by zero is 0 in [R] and
    falls outside of it, as the infinite or undefined quotient of the
    floating-point division does. *)
Lemma ratio_window (w c lo hi : R) :
  0 < lo ->
  (Rltb (w / c) hi && Rltb lo (w / c) = true <->
   c <> 0 /\ lo - 1 < (w - c) / c < hi - 1).
Proof.
  intros Hlo. rewrite andb_true_iff, !Rltb_true. split.
  - intros [H1 H2].
    assert (Hc : c <> 0).
    { intros ->. unfold Rdiv in H2. rewrite Rinv_0, Rmult_0_r in H2. lra. }
    split; [exact Hc|].
    replace ((w - c) / c) with (w / c - 1) by (field; exact Hc). lra.
  - intros [Hc H].
    replace ((w - c) / c) with (w / c - 1) in H by (field; exact Hc). lra.
Qed.

(** X19.  What the cross-check lets pass, with the bounds its
    single-precision literals denote: a pair whose magnitudes sum to less
    than [0.001f], or a recomputed value [c] other than zero and an updated
    value [w] whose relative deviation [(w - c) / c] lies strictly between
    [-41943/4194304] and [41943/4194304] for [W] (a little under 1%), between
    [-16777/16777216] and [8389/8388608] for [T] (about 0.1%); and nothing
    else. *)
Theorem chk_relative_error w c :
  (chk_W w c = true <->
   Rabs w + Rabs c < 8589935 / 8589934592 \/
   (c <> 0 /\ - (41943 / 4194304) < (w - c) / c < 41943 / 4194304)) /\
  (chk_T w c = true <->
   Rabs w + Rabs c < 8589935 / 8589934592 \/
   (c <> 0 /\ - (16777 / 16777216) < (w - c) / c < 8389 / 8388608)).
Proof.
  unfold chk_W, chk_T. rewrite !orb_true_iff, !Rltb_true.
  rewrite (ratio_window w c f32_0_99 f32_1_01) by (unfold f32_0_99; lra).
  rewrite (ratio_window w c f32_0_999 f32_1_001) by (unfold f32_0_999; lra).
  unfold f32_0_001, f32_0_99, f32_1_01, f32_0_999, f32_1_001.
  split; split; (intros [H|[Hc H]]; [left; exact H | right; split; [exact Hc | lra]]).
Qed.

End Walker.

Arguments mkVMC {RNG} _ _ _ _ _ _.
Arguments rng {RNG} _.
Arguments econf {RNG} _.
Arguments W {RNG} _ _ _.
Arguments T {RNG} _ _.
Arguments completed_mcsteps {RNG} _.
Arguments updates_since_WT_recalc {RNG} _.
Arguments set_rng {RNG} _ _.
Arguments mctime {RNG} _.

(** ** The Jastrow table under a down-spin hop

    The table [v] has an entry for each pair of sites.  [calc_new_T] reads
    [v(i, j)] for sites [i] and [j], and [calc_updated_T] maps the hop's
    spin-orbitals to their sites before it reads [v].  Lines 127 and 350
    read [v(l, k_pos)] at the spin-orbitals themselves, which for a
    down-spin hop are no sites. *)

Section JastrowTable.

Set Default Proof Using "Type".

Variable RNG : Type.
Variable lat : Lattice.




End JastrowTable.

(** ** A two-site lattice with deterministic draws

    Two sites, hence the spin-orbitals 0, 1 (up) and 2, 3 (down); the only
    neighbour of a spin-orbital is the other one of its sector.  The
    generator is a position in a stream whose uniform draws are all 1/2,
    and a proposal moves electron 0 to its neighbour. *)

Module TwoSites.

Definition Xnn (s X : nat) : list nat :=
  match X with
  | 1%nat =>
      match s with
      | 0%nat => [1%nat]
      | 1%nat => [0%nat]
      | 2%nat => [3%nat]
      | 3%nat => [2%nat]
      | _ => []
      end
  | _ => []
  end.

Definition lat : Lattice := mkLattice 2 Xnn.

Definition uniform_real (g : nat) : R * nat := (1 / 2, S g).

Definition propose_random_hop (e : ElectronConfiguration) (maxdist g : nat)
  : ElectronHop * nat :=
  let p := get_electron_pos e 0 in
  let target := nth 0 (Xnn p maxdist) 0%nat in
  (mkHop 0 target p
         (occ_eqb (get_site_occ e target) ELECTRON_OCCUPATION_EMPTY),
   S g).

Definition distribute_random (e : ElectronConfiguration) (g : nat)
  : ElectronConfiguration * nat :=
  (mkEconf (seq (g mod 2) (econf_N e)), S g).

Definition econf_init (_ : Lattice) (n g : nat)
  : ElectronConfiguration * nat :=
  (mkEconf (seq 0 n), S g).

(** The inverse of a [1 x 1] matrix. *)
Definition inverse (_ : nat) (D : Matrix) : Matrix :=
  fun _ _ => / D 0%nat 0%nat.

Definition isInvertible (_ : nat) (D : Matrix) : bool :=
  negb (Reqb (D 0%nat 0%nat) 0).

(** The orbital amplitudes 1, 2, 3, 4 of the four spin-orbitals. *)
Definition M : Matrix := fun i _ => INR (S i).

Definition v0 : nat -> nat -> R := fun _ _ => 0.

(** The table with factor 1 between the two sites and 0 on a site. *)
Definition v1 : nat -> nat -> R :=
  fun i j =>
    match i, j with
    | 0%nat, 1%nat | 1%nat, 0%nat => 1
    | _, _ => 0
    end.

(** One electron on spin-orbital 0, [W] and [T] as recomputed: the walker
    that the constructor returns. *)
Definition e0 : ElectronConfiguration := mkEconf [0%nat].

Definition walker0 : HubbardModelVMC nat :=
  mkVMC 1%nat e0
        (mat_mul 1 M (inverse 1 (calc_D M e0)))
        (calc_new_T lat v0 e0) 0%Z 0%Z.

Definition hop01 : ElectronHop := mkHop 0 1 0 true.

(** Two spin-up electrons: the neighbour of electron 0 is taken. *)
Definition walker_full : HubbardModelVMC nat :=
  mkVMC 0%nat (mkEconf [0%nat; 1%nat])
        (fun _ _ => 1) (fun _ => 1) 0%Z 0%Z.

(** One electron on spin-orbital [p], with ratio [w] everywhere in [W]. *)
Definition walker_at (p : nat) (w : R) : HubbardModelVMC nat :=
  mkVMC 0%nat (mkEconf [p]) (fun _ _ => w) (fun _ => 1) 0%Z 0%Z.

Lemma FullPivLU_exact_1 : FullPivLU_exact inverse isInvertible 1.
Proof.
  intros D [X [HX _]].
  assert (Hnz : D 0%nat 0%nat <> 0).
  { specialize (HX 0%nat 0%nat Nat.lt_0_1 Nat.lt_0_1).
    unfold mat_mul, identity in HX. simpl in HX. intros E.
    rewrite E in HX. lra. }
  split.
  - split; intros i j Hi Hj;
      assert (i = 0%nat) by lia; assert (j = 0%nat) by lia; subst;
      unfold mat_mul, inverse, identity; simpl; field; exact Hnz.
  - unfold isInvertible, Reqb.
    destruct (Req_dec_T (D 0%nat 0%nat) 0); [contradiction | reflexivity].
Qed.

Lemma walker0_consistent : WT_consistent nat inverse lat M v0 walker0.
Proof.
  unfold WT_consistent. simpl. repeat split.
  - repeat constructor; simpl; tauto.
  - repeat constructor.
  - exists (fun _ _ => 1). split; intros i j Hi Hj;
      unfold econf_N, e0 in Hi, Hj; simpl in Hi, Hj;
      assert (i = 0%nat) by lia; assert (j = 0%nat) by lia; subst;
      unfold mat_mul, calc_D, M, identity, get_electron_pos, e0; simpl; lra.
Qed.

Lemma calc_new_T_v0 e i : calc_new_T lat v0 e i = 1.
Proof.
  unfold calc_new_T, v0. simpl.
  rewrite !Rmult_0_l, !Rplus_0_l. apply exp_0.
Qed.

Lemma walker0_W10 : W walker0 1%nat 0%nat = 2.
Proof.
  unfold walker0, mat_mul, inverse, calc_D, M. simpl. field.
Qed.

Lemma walker0_accept_prob :
  accept_prob_of nat lat v0 walker0 hop01 = 4.
Proof.
  unfold accept_prob_of, R_j_of. simpl l. simpl k. simpl k_pos.
  rewrite walker0_W10. unfold walker0. simpl T.
  rewrite !calc_new_T_v0. unfold v0.
  replace (0 - 0) with 0 by lra. rewrite exp_0. field.
Qed.

Lemma hop01_acceptable :
  hop_acceptable nat lat v0 walker0 hop01.
Proof.
  unfold hop_acceptable. split; [|split].
  - unfold hop_wf, econf_N, get_electron_pos. simpl.
    repeat split; lia.
  - reflexivity.
  - rewrite walker0_accept_prob. lra.
Qed.

(** C1 at work: one accepted hop of the electron from 0 to 1, in a build
    with assertions and a threshold of one quick update. *)
Lemma incremental_WT_matches_recomputation_witness :
  exists st' W_new,
    accept_hops nat inverse isInvertible false lat M v0 1 walker0 [hop01]
    = Some st' /\
    all_quick nat inverse isInvertible false lat M v0 1 walker0 [hop01] /\
    econf st' = fold_left do_hop [hop01] (econf walker0) /\
    W st' = fold_left calc_updated_W [hop01] (W walker0) /\
    T st' = fold_left (calc_updated_T lat v0) [hop01] (T walker0) /\
    calc_new_W inverse isInvertible false M (econf st') = Some W_new /\
    mat_eq (2 * L lat) (econf_N (econf st')) (W st') W_new /\
    vec_eq (L lat) (T st') (calc_new_T lat v0 (econf st')).
Proof.
  apply incremental_WT_matches_recomputation.
  - exact FullPivLU_exact_1.
  - exact walker0_consistent.
  - cbn [accepted_seq]. split; [exact hop01_acceptable|].
    destruct (accept_hop _ _ _ _ _ _ _ _ _ _); exact I.
  - reflexivity.
  - simpl. lia.
Defined.

(** C3 at work: the proposal 0 -> 1 has probability 4 and is accepted
    without a draw. *)
Lemma metstep_acceptance_rule_witness :
  accept_prob_of nat lat v0 (set_rng walker0 2%nat) hop01
  = (R_j_of nat lat v0 walker0 1 0 * W walker0 1%nat 0%nat) ^ 2 /\
  metstep nat uniform_real propose_random_hop inverse isInvertible true
          lat M v0 1%nat 1%Z walker0
  = accept_hop nat inverse isInvertible true lat M v0 1%Z
               (set_rng walker0 2%nat) hop01.
Proof.
  pose proof (metstep_acceptance_rule
                nat uniform_real propose_random_hop inverse isInvertible true
                lat M v0 1%nat 1%Z walker0 eq_refl) as H.
  cbv zeta in H. destruct H as [H1 [H2 _]].
  split; [exact H1|]. apply H2.
  change (1 <= (R_j_of nat lat v0 walker0 1 0 * W walker0 1%nat 0%nat) ^ 2).
  change (accept_prob_of nat lat v0 walker0 hop01
          = (R_j_of nat lat v0 walker0 1 0 * W walker0 1%nat 0%nat) ^ 2)
    in H1.
  rewrite <- H1, walker0_accept_prob. lra.
Defined.

Lemma walker_at_accept_prob v p w hop :
  v 0%nat 0%nat - v (l hop) (k_pos hop) = 0 ->
  accept_prob_of nat lat v (walker_at p w) hop = w * w.
Proof.
  intros Hv. unfold accept_prob_of, R_j_of, walker_at. simpl.
  rewrite Hv, exp_0. field.
Qed.

(** With ratio 1/2 the proposal 0 -> 1 has probability 1/4, and the draw
    1/2 rejects it. *)
Lemma walker_half_rejected ndebug :
  metstep nat uniform_real propose_random_hop inverse isInvertible ndebug
          lat M v0 1%nat 1%Z (walker_at 0 (1 / 2))
  = Some (false, set_rng (walker_at 0 (1 / 2)) 2%nat).
Proof.
  rewrite metstep_unfold. cbv zeta.
  change (fst (propose_random_hop (econf (walker_at 0 (1 / 2))) 1
                 (rng (walker_at 0 (1 / 2))))) with hop01.
  change (snd (propose_random_hop (econf (walker_at 0 (1 / 2))) 1
                 (rng (walker_at 0 (1 / 2))))) with 1%nat.
  cbn [possible hop01 negb].
  change (accept_prob_of nat lat v0 (set_rng (walker_at 0 (1 / 2)) 1%nat) hop01)
    with (accept_prob_of nat lat v0 (walker_at 0 (1 / 2)) hop01).
  rewrite walker_at_accept_prob by (unfold v0; lra).
  assert (E1 : Rgeb (1 / 2 * (1 / 2)) 1 = false) by (apply Rgeb_false; lra).
  assert (E2 : Rltb (fst (uniform_real 1)) (1 / 2 * (1 / 2)) = false)
    by (apply Rltb_false; simpl; lra).
  rewrite E1, E2. reflexivity.
Qed.

(** C10 at work: a feasible proposal of probability 1/4 takes the draw, and
    the generator ends one uniform draw past the proposal. *)
Lemma metstep_draws_witness :
  rng (set_rng (walker_at 0 (1 / 2)) 2%nat)
  = (if possible hop01
        && Rltb (accept_prob_of nat lat v0
                   (set_rng (walker_at 0 (1 / 2)) 1%nat) hop01) 1
     then snd (uniform_real 1) else 1%nat) /\
  Rltb (accept_prob_of nat lat v0 (set_rng (walker_at 0 (1 / 2)) 1%nat) hop01)
       1 = true.
Proof.
  split.
  - exact (proj1 (metstep_draws
                    nat uniform_real propose_random_hop inverse isInvertible
                    true lat M v0 1%nat 1%Z (walker_at 0 (1 / 2)) false
                    (set_rng (walker_at 0 (1 / 2)) 2%nat)
                    (walker_half_rejected true))).
  - apply Rltb_true.
    change (accept_prob_of nat lat v0 (walker_at 0 (1 / 2)) hop01 < 1).
    rewrite walker_at_accept_prob by (unfold v0; lra). lra.
Defined.

(** C7 at work: with both spin-up orbitals taken the proposal is infeasible. *)
Lemma metstep_rejected_frame_witness :
  W (set_rng walker_full 1%nat) = W walker_full /\
  T (set_rng walker_full 1%nat) = T walker_full /\
  econf (set_rng walker_full 1%nat) = econf walker_full /\
  completed_mcsteps (set_rng walker_full 1%nat)
  = completed_mcsteps walker_full /\
  updates_since_WT_recalc (set_rng walker_full 1%nat)
  = updates_since_WT_recalc walker_full.
Proof.
  apply (metstep_rejected_frame
           nat uniform_real propose_random_hop inverse isInvertible false
           lat M v1 1%nat 1%Z walker_full (set_rng walker_full 1%nat)).
  reflexivity.
Defined.

(** C5 at work: with a threshold of zero the update is a recomputation,
    with a threshold of one and a counter at zero it is a quick update. *)
Lemma perform_WT_update_policy_witness :
  perform_WT_update nat inverse isInvertible true lat M v0 0%Z walker0 hop01
  = (W' <- calc_new_W inverse isInvertible true M (econf walker0) ;;
     Some (mkVMC (rng walker0) (econf walker0) W'
                 (calc_new_T lat v0 (econf walker0))
                 (completed_mcsteps walker0) 0%Z)) /\
  exists st',
    perform_WT_update nat inverse isInvertible true lat M v0 1%Z walker0 hop01
    = Some st'.
Proof.
  split.
  - apply (perform_WT_update_policy
             nat inverse isInvertible true lat M v0 0%Z walker0 hop01);
      simpl; lia.
  - apply (perform_WT_update_policy
             nat inverse isInvertible true lat M v0 1%Z walker0 hop01);
      simpl; lia.
Defined.

(** C9 at work: the counter of a walker stays within a threshold of one
    across a Metropolis step. *)
Lemma updates_since_WT_recalc_bounded_witness :
  counter_inv nat 1%Z (set_rng walker_full 1%nat).
Proof.
  pose proof (updates_since_WT_recalc_bounded
                nat uniform_real propose_random_hop distribute_random
                econf_init inverse isInvertible false lat M v1 1%nat 1%nat
                1%Z) as H.
  destruct H as [_ [_ [H _]]]; [lia|].
  apply (H walker_full false (set_rng walker_full 1%nat)).
  - unfold counter_inv. simpl. lia.
  - reflexivity.
Defined.

Lemma construct_walker0 fuel :
  construct nat distribute_random econf_init inverse isInvertible lat M v0
            1%nat fuel 0%nat
  = Some walker0.
Proof.
  unfold construct. cbn [econf_init seq].
  assert (E : isInvertible (econf_N (mkEconf [0%nat]))
                           (calc_D M (mkEconf [0%nat])) = true).
  { unfold isInvertible, Reqb, calc_D, M, get_electron_pos. simpl.
    destruct (Req_dec_T 1 0); [lra | reflexivity]. }
  rewrite E. reflexivity.
Qed.

(** C8 at work: construct the walker, equilibrate for three sweeps, sweep
    once more: the counter reads 0 after the equilibration and 1 in the end. *)
Lemma equilibrate_keeps_mctime_witness :
  exists st1 st2,
    equilibrate nat uniform_real propose_random_hop inverse isInvertible true
                lat M v0 1%nat 1%Z 3 walker0 = Some st1 /\
    mcs nat uniform_real propose_random_hop inverse isInvertible true
        lat M v0 1%nat 1%Z st1 = Some st2 /\
    mctime st1 = 0%Z /\ mctime st2 = 1%Z.
Proof.
  pose proof (equilibrate_keeps_mctime
                nat uniform_real propose_random_hop distribute_random
                econf_init inverse isInvertible true lat M v0 1%nat 1%nat
                1%Z 3 walker0) as H.
  destruct H as [H1 [H2 H3]]; [simpl; lia|].
  destruct (H2 eq_refl) as [st1 E1].
  destruct (mcs_total nat uniform_real propose_random_hop inverse isInvertible
                      true lat M v0 1%nat 1%Z st1 eq_refl) as [st2 E2].
  exists st1, st2. split; [exact E1|]. split; [exact E2|]. split.
  - exact (H1 st1 E1).
  - exact (H3 0%nat 0%nat st1 st2 (construct_walker0 0) E1 E2).
Defined.

(** C6 (as amended) at work: 0.0001 against 0.0002 is off by a factor of
    two and passes. *)
Lemma chk_small_pair_witness :
  chk_W (1 / 10000) (2 / 10000) = true /\
  chk_T (1 / 10000) (2 / 10000) = true.
Proof.
  apply chk_small_pair.
  rewrite !Rabs_right by lra. lra.
Defined.

Lemma chk_both_small_values :
  chk_W (9 / 10000) (5 / 10000) = false /\
  chk_T (9 / 10000) (5 / 10000) = false.
Proof.
  assert (Ha : Rabs (9 / 10000) = 9 / 10000) by (apply Rabs_right; lra).
  assert (Hb : Rabs (5 / 10000) = 5 / 10000) by (apply Rabs_right; lra).
  assert (E0 : Rltb (Rabs (9 / 10000) + Rabs (5 / 10000)) f32_0_001 = false)
    by (apply Rltb_false; rewrite Ha, Hb; unfold f32_0_001; lra).
  assert (E1 : Rltb (9 / 10000 / (5 / 10000)) f32_1_01 = false)
    by (apply Rltb_false; unfold f32_1_01; lra).
  assert (E2 : Rltb (9 / 10000 / (5 / 10000)) f32_1_001 = false)
    by (apply Rltb_false; unfold f32_1_001; lra).
  split.
  - unfold chk_W. rewrite E0, E1. reflexivity.
  - unfold chk_T. rewrite E0, E2. reflexivity.
Qed.

(** A walker whose [W] has drifted at spin-orbital 2: after the hop 0 -> 1
    the quick update leaves 0.0009 there, the recomputation gives 0.0005. *)
Definition M_small : Matrix :=
  fun i _ => if Nat.eqb i 2 then 5 / 10000 else 1.

Definition walker_drift : HubbardModelVMC nat :=
  mkVMC 0%nat (mkEconf [1%nat])
        (fun i _ => if Nat.eqb i 2 then 9 / 10000 else 1)
        (fun _ => 1) 0%Z 0%Z.

Lemma walker_drift_entries :
  calc_updated_W (W walker_drift) hop01 2%nat 0%nat = 9 / 10000 /\
  mat_mul 1 M_small (inverse 1 (calc_D M_small (econf walker_drift)))
          2%nat 0%nat = 5 / 10000.
Proof.
  unfold calc_updated_W, mat_mul, inverse, calc_D, M_small, walker_drift.
  simpl. split; field.
Qed.

Lemma walker_drift_aborts :
  perform_WT_update nat inverse isInvertible false lat M_small v0 1%Z
                    walker_drift hop01 = None.
Proof.
  destruct walker_drift_entries as [Hu Hr].
  unfold perform_WT_update, calc_new_W.
  change (1 <=? updates_since_WT_recalc walker_drift)%Z with false.
  cbv iota zeta. cbn [econf set_W W].
  assert (Ei : isInvertible (econf_N (econf walker_drift))
                            (calc_D M_small (econf walker_drift)) = true).
  { unfold isInvertible, Reqb, calc_D, M_small, get_electron_pos. simpl.
    destruct (Req_dec_T 1 0); [lra | reflexivity]. }
  rewrite Ei. cbn [assert bind].
  assert (Ec : check_W lat (econf walker_drift)
                 (calc_updated_W (W walker_drift) hop01)
                 (mat_mul (econf_N (econf walker_drift)) M_small
                    (inverse (econf_N (econf walker_drift))
                             (calc_D M_small (econf walker_drift)))) = false).
  { apply Bool.not_true_is_false. intros Hc. unfold check_W in Hc.
    rewrite forallb_forall in Hc.
    specialize (Hc 0%nat (or_introl eq_refl)).
    rewrite forallb_forall in Hc.
    assert (Hin : In 2%nat (seq 0 (2 * L lat))) by (simpl; tauto).
    specialize (Hc 2%nat Hin). cbv beta in Hc.
    change (econf_N (econf walker_drift)) with 1%nat in Hc.
    rewrite Hu, Hr in Hc.
    destruct chk_both_small_values as [E _]. congruence. }
  rewrite Ec. reflexivity.
Qed.

(** C6 as stated fails: 0.0009 and 0.0005 are both below 0.001 in
    magnitude, their sum is not, their ratio is 1.8, and neither check takes
    the pair as reconciled; a quick update that leaves this pair in [W]
    fails the assertion of line 224. *)
Lemma chk_both_small_counterexample :
  Rabs (9 / 10000) < 1 / 1000 /\ Rabs (5 / 10000) < 1 / 1000 /\
  chk_W (9 / 10000) (5 / 10000) = false /\
  chk_T (9 / 10000) (5 / 10000) = false /\
  calc_updated_W (W walker_drift) hop01 2%nat 0%nat = 9 / 10000 /\
  mat_mul 1 M_small (inverse 1 (calc_D M_small (econf walker_drift)))
          2%nat 0%nat = 5 / 10000 /\
  perform_WT_update nat inverse isInvertible false lat M_small v0 1%Z
                    walker_drift hop01 = None.
Proof.
  assert (Ha : Rabs (9 / 10000) = 9 / 10000) by (apply Rabs_right; lra).
  assert (Hb : Rabs (5 / 10000) = 5 / 10000) by (apply Rabs_right; lra).
  destruct chk_both_small_values as [EW ET].
  destruct walker_drift_entries as [Hu Hr].
  rewrite Ha, Hb. repeat split; try lra; try assumption.
  exact walker_drift_aborts.
Qed.

Lemma exp_minus_1_lt_half : 0 < exp (-1) < 1 / 2.
Proof.
  pose proof (exp_pos (-1)) as Hpos.
  pose proof (exp_ineq1 1 R1_neq_R0) as H2.
  assert (E : exp (-1) * exp 1 = 1).
  { rewrite <- exp_plus. replace (-1 + 1) with 0 by lra. apply exp_0. }
  split; [exact Hpos | nra].
Qed.

(** The down-spin hop from spin-orbital 2 to spin-orbital 3. *)
Definition hop23 : ElectronHop := mkHop 0 3 2 true.

(** The table [v1] read with a value at the pair (3, 2), where the
    two-by-two table has no entry. *)
Definition v1_beyond (x : R) : nat -> nat -> R :=
  fun i j => if Nat.eqb i 3 && Nat.eqb j 2 then x else v1 i j.


Lemma R_j_down_spin x :
  R_j_of nat lat (v1_beyond x) (walker_at 2 1) 3 2 = exp (0 - x) /\
  R_j_spec nat lat (v1_beyond x) (walker_at 2 1) 3 2 = exp (-1).
Proof.
  unfold R_j_of, R_j_spec, walker_at, v1_beyond, v1. simpl. split.
  - field.
  - replace (0 - 1) with (-1) by lra. field.
Qed.

(** The step on the hop 2 -> 3, for a walker with one down-spin electron on
    site 0 and ratio 1 to its neighbour.  With the table's entry
    [v(1, 0) = 1] the probability is [exp(-2) < 1/2], which the draw 1/2
    rejects.  The code reads the pair (3, 2): when it finds 0 there, the
    probability is 1 and it accepts the hop without a draw; it rejects the
    hop when it finds 1 there, the value of the entry for the two sites. *)
Lemma metstep_outside_table :
  fst (propose_random_hop (econf (walker_at 2 1)) 1 (rng (walker_at 2 1)))
  = hop23 /\
  (R_j_spec nat lat (v1_beyond 0) (walker_at 2 1) 3 2
   * W (walker_at 2 1) 3%nat 0%nat) ^ 2 < 1 / 2 /\
  accept_prob_of nat lat (v1_beyond 0) (walker_at 2 1) hop23 = 1 /\
  (forall b st',
      metstep nat uniform_real propose_random_hop inverse isInvertible true
              lat M (v1_beyond 0) 1%nat 1%Z (walker_at 2 1) = Some (b, st') ->
      b = true /\ rng st' = 1%nat) /\
  metstep nat uniform_real propose_random_hop inverse isInvertible true
          lat M (v1_beyond 1) 1%nat 1%Z (walker_at 2 1)
  = Some (false, set_rng (walker_at 2 1) 2%nat).
Proof.
  destruct (R_j_down_spin 0) as [Hc0 Hs]. destruct (R_j_down_spin 1) as [Hc1 _].
  destruct exp_minus_1_lt_half as [Hp Hh].
  assert (E0 : accept_prob_of nat lat (v1_beyond 0) (walker_at 2 1) hop23 = 1).
  { unfold accept_prob_of.
    change (R_j_of nat lat (v1_beyond 0) (walker_at 2 1)
                   (l hop23) (k_pos hop23))
      with (R_j_of nat lat (v1_beyond 0) (walker_at 2 1) 3 2).
    rewrite Hc0, Rminus_diag, exp_0. simpl. ring. }
  split; [reflexivity|]. split; [rewrite Hs; simpl; nra|].
  split; [exact E0|]. split.
  - intros b st' H. rewrite metstep_unfold in H. cbv zeta in H.
    change (fst (propose_random_hop (econf (walker_at 2 1)) 1
                   (rng (walker_at 2 1)))) with hop23 in H.
    change (snd (propose_random_hop (econf (walker_at 2 1)) 1
                   (rng (walker_at 2 1)))) with 1%nat in H.
    cbn [possible hop23 negb] in H.
    change (accept_prob_of nat lat (v1_beyond 0)
                           (set_rng (walker_at 2 1) 1%nat) hop23)
      with (accept_prob_of nat lat (v1_beyond 0) (walker_at 2 1) hop23) in H.
    rewrite E0 in H.
    assert (E1 : Rgeb 1 1 = true) by (apply Rgeb_true; lra).
    rewrite E1 in H.
    split; [exact (accept_hop_true _ _ _ _ _ _ _ _ _ _ _ _ H)|].
    rewrite (proj1 (accept_hop_frame _ _ _ _ _ _ _ _ _ _ _ _ H)).
    reflexivity.
  - rewrite metstep_unfold. cbv zeta.
    change (fst (propose_random_hop (econf (walker_at 2 1)) 1
                   (rng (walker_at 2 1)))) with hop23.
    change (snd (propose_random_hop (econf (walker_at 2 1)) 1
                   (rng (walker_at 2 1)))) with 1%nat.
    cbn [possible hop23 negb].
    assert (Ep : accept_prob_of nat lat (v1_beyond 1)
                                (set_rng (walker_at 2 1) 1%nat) hop23
                 = exp (-1) * exp (-1)).
    { unfold accept_prob_of.
      change (R_j_of nat lat (v1_beyond 1) (set_rng (walker_at 2 1) 1%nat)
                     (l hop23) (k_pos hop23))
        with (R_j_of nat lat (v1_beyond 1) (walker_at 2 1) 3 2).
      rewrite Hc1. replace (0 - 1) with (-1) by lra. simpl. ring. }
    rewrite Ep.
    assert (E1 : Rgeb (exp (-1) * exp (-1)) 1 = false)
      by (apply Rgeb_false; nra).
    assert (E2 : Rltb (fst (uniform_real 1)) (exp (-1) * exp (-1)) = false)
      by (apply Rltb_false; simpl; nra).
    rewrite E1, E2. reflexivity.
Qed.


(** C4 at work: the local energy of the walker with one electron on
    spin-orbital 0, ratio 2 to its neighbour, hopping amplitude 1 and no
    interaction is [-(1 * 2) / 2 = -1], in a build with assertions. *)
Lemma E_l_value_witness :
  E_l nat false lat v0 [1] 0 (walker_at 0 2) = Some (-1).
Proof.
  rewrite (E_l_value nat false lat v0 [1] 0 (walker_at 0 2)). f_equal.
  unfold E_kin_spec, R_j_of, get_num_dblocc, walker_at, v0. simpl.
  assert (E : Reqb 1 0 = false).
  { unfold Reqb. destruct (Req_dec_T 1 0); [lra | reflexivity]. }
  rewrite E. simpl. replace (0 - 0) with 0 by lra. rewrite exp_0. field.
Defined.


(** ** The further properties on the two-site lattice *)

Lemma walker0_unit_row j :
  (j < 1)%nat -> W walker0 0%nat j = identity 0%nat j.
Proof.
  intros Hj. assert (j = 0%nat) by lia. subst.
  unfold walker0, mat_mul, inverse, calc_D, M, get_electron_pos, e0, identity.
  simpl. field.
Qed.

(** X1 at work: the recomputed [W] of the one-electron walker. *)
Lemma calc_new_W_rows_witness :
  exists W_new,
    calc_new_W inverse isInvertible false M e0 = Some W_new /\
    (forall i c, (c < econf_N e0)%nat ->
                 mat_mul (econf_N e0) W_new (calc_D M e0) i c = M i c) /\
    unit_rows e0 W_new.
Proof.
  apply (calc_new_W_rows inverse isInvertible false M e0).
  - exact FullPivLU_exact_1.
  - apply walker0_consistent.
Defined.

(** X2 at work: after the hop 0 -> 1 the row of spin-orbital 1 is the one
    of the electron. *)
Lemma calc_updated_W_unit_rows_witness :
  calc_updated_W (W walker0) hop01 1%nat 0%nat = 1 /\ True.
Proof.
  split; [|exact I].
  apply (calc_updated_W_unit_rows e0 hop01 (W walker0)) with (eid := 0%nat)
                                                             (j := 0%nat).
  - unfold econf_N. simpl. lia.
  - reflexivity.
  - intros eid j He Hj. unfold econf_N in He. simpl in He.
    assert (eid = 0%nat) by lia. subst. now apply walker0_unit_row.
  - change (W walker0 1%nat 0%nat <> 0). rewrite walker0_W10. lra.
  - unfold econf_N. simpl. lia.
  - unfold econf_N. simpl. lia.
Defined.

(** X3 at work: the hop 0 -> 1 and back, on the walker with ratio 2. *)
Lemma calc_updated_W_reverse_witness :
  calc_updated_W (W walker0) hop01 0%nat 0%nat = / W walker0 1%nat 0%nat /\
  forall i j, (j < 1)%nat ->
    calc_updated_W (calc_updated_W (W walker0) hop01) (reverse_hop hop01) i j
    = W walker0 i j.
Proof.
  apply (calc_updated_W_reverse (W walker0) hop01 1).
  - simpl. lia.
  - exact walker0_unit_row.
  - change (W walker0 1%nat 0%nat <> 0). rewrite walker0_W10. lra.
Defined.

(** X5 at work: the hop 0 -> 1 has ratio 2, and the determinant matrix
    after it is invertible. *)
Lemma hop_invertible_iff_witness :
  (invertible (econf_N e0) (calc_D M (do_hop e0 hop01)) <->
   W walker0 (l hop01) (k hop01) <> 0) /\
  W walker0 (l hop01) (k hop01) = 2.
Proof.
  split; [|exact walker0_W10].
  apply (hop_invertible_iff inverse isInvertible lat M e0 hop01 (W walker0)).
  - exact FullPivLU_exact_1.
  - unfold econf_N. simpl. lia.
  - simpl. lia.
  - apply walker0_consistent.
  - apply walker0_consistent.
Defined.

Lemma uniform_real_nonneg g : 0 <= fst (uniform_real g).
Proof. simpl. lra. Qed.

(** X6 at work: with ratio 0 the feasible hop 0 -> 1 is rejected. *)
Lemma metstep_zero_ratio_rejected_witness :
  exists st',
    metstep nat uniform_real propose_random_hop inverse isInvertible false
            lat M v0 1%nat 1%Z (walker_at 0 0)
    = Some (false, st').
Proof.
  apply (metstep_zero_ratio_rejected
           nat uniform_real propose_random_hop inverse isInvertible false
           lat M v0 1%nat 1%Z (walker_at 0 0) uniform_real_nonneg).
  reflexivity.
Defined.

Lemma walker0_step :
  metstep nat uniform_real propose_random_hop inverse isInvertible true
          lat M v0 1%nat 1%Z walker0
  = Some (true,
          mkVMC 2%nat (do_hop e0 hop01)
                (calc_updated_W (W walker0) hop01)
                (calc_updated_T lat v0 (T walker0) hop01) 0%Z 1%Z).
Proof.
  destruct (metstep_feasible
              nat uniform_real propose_random_hop inverse isInvertible true
              lat M v0 1%nat 1%Z walker0 eq_refl) as [H1 [H2 _]].
  rewrite H2; [reflexivity|].
  change (accept_prob_of nat lat v0 walker0 hop01
          = (R_j_of nat lat v0 walker0 1 0 * W walker0 1%nat 0%nat) ^ 2)
    in H1.
  change (1 <= (R_j_of nat lat v0 walker0 1 0 * W walker0 1%nat 0%nat) ^ 2).
  rewrite <- H1, walker0_accept_prob. lra.
Qed.

(** X7 at work: the accepted step of the constructed walker. *)
Lemma metstep_accepted_effect_witness :
  possible hop01 = true /\
  econf (mkVMC 2%nat (do_hop e0 hop01)
               (calc_updated_W (W walker0) hop01)
               (calc_updated_T lat v0 (T walker0) hop01) 0%Z 1%Z)
  = do_hop (econf walker0) hop01 /\
  econf_N (do_hop e0 hop01) = econf_N (econf walker0) /\
  0%Z = completed_mcsteps walker0 /\
  1%Z = (if recalc_due nat 1%Z walker0 then 0%Z
         else wrap32 (updates_since_WT_recalc walker0 + 1)).
Proof.
  exact (metstep_accepted_effect
           nat uniform_real propose_random_hop inverse isInvertible true
           lat M v0 1%nat 1%Z walker0 _ walker0_step).
Defined.

Lemma propose_random_hop_wf e g :
  econf_wf lat e -> econf_N e = 1%nat ->
  hop_wf lat e (fst (propose_random_hop e 1 g)).
Proof.
  intros [_ Hall] HN. destruct e as [[|p [|q ps]]]; try discriminate.
  inversion Hall as [|? ? Hp _]; subst. simpl in Hp.
  unfold hop_wf, propose_random_hop, econf_N, get_electron_pos. simpl.
  split; [lia|]. split; [reflexivity|].
  destruct p as [|[|[|[|p]]]]; try lia; simpl;
    (split; [lia|]); intros _; reflexivity.
Qed.

Lemma exact_environment_1 :
  exact_environment nat uniform_real propose_random_hop inverse isInvertible
                    lat 1%nat 1.
Proof.
  split; [exact FullPivLU_exact_1|]. split.
  - intros e g. apply propose_random_hop_wf.
  - exact uniform_real_nonneg.
Qed.

(** X8 at work: the constructed walker in a build with assertions. *)
Lemma walk_keeps_WT_exact_witness :
  exists st',
    equilibrate nat uniform_real propose_random_hop inverse isInvertible false
                lat M v0 1%nat 1%Z 3 walker0 = Some st' /\
    WT_consistent nat inverse lat M v0 st' /\
    econf_N (econf st') = econf_N (econf walker0).
Proof.
  apply (walk_keeps_WT_exact
           nat uniform_real propose_random_hop inverse isInvertible false
           lat M v0 1%nat 1%Z walker0 exact_environment_1
           walker0_consistent).
Defined.

Lemma isInvertible_sound D : isInvertible 1 D = true -> invertible 1 D.
Proof.
  unfold isInvertible, Reqb. intros H.
  destruct (Req_dec_T (D 0%nat 0%nat) 0) as [|Hnz]; [discriminate|].
  exists (fun _ _ => / D 0%nat 0%nat).
  split; intros i j Hi Hj;
    assert (i = 0%nat) by lia; assert (j = 0%nat) by lia; subst;
    unfold mat_mul, identity; simpl; field; exact Hnz.
Qed.

Lemma seq_wf a n : (a + n <= 4)%nat -> econf_wf lat (mkEconf (seq a n)).
Proof.
  intros H. split; simpl.
  - apply seq_NoDup.
  - apply Forall_forall. intros x Hx. apply in_seq in Hx. lia.
Qed.

(** X9 at work: the walker the constructor returns. *)
Lemma construct_consistent_witness :
  WT_consistent nat inverse lat M v0 walker0 /\
  econf_N (econf walker0) = 1%nat /\
  isInvertible 1 (calc_D M (econf walker0)) = true /\
  completed_mcsteps walker0 = 0%Z /\ updates_since_WT_recalc walker0 = 0%Z.
Proof.
  apply (construct_consistent
           nat distribute_random econf_init inverse isInvertible lat M v0
           1%nat 0%nat 0%nat walker0).
  - exact FullPivLU_exact_1.
  - exact isInvertible_sound.
  - intros g0. split; [apply seq_wf; lia | reflexivity].
  - intros e1 g0 HN. unfold distribute_random. cbn [fst]. rewrite HN. split.
    + apply seq_wf.
      assert ((g0 mod 2 < 2)%nat) by (apply Nat.mod_upper_bound; lia). lia.
    + unfold econf_N. simpl. reflexivity.
  - exact (construct_walker0 0).
Defined.

(** Orbital amplitudes that vanish on spin-orbital 0. *)
Definition M_gap : Matrix := fun i _ => INR i.

Lemma M_gap_invertible_after n :
  invertible_after nat distribute_random isInvertible M_gap n
                   (fst (econf_init lat 1 0)) (snd (econf_init lat 1 0))
  = match n with 0%nat => false | 1%nat => true | _ =>
      invertible_after nat distribute_random isInvertible M_gap n
                   (fst (econf_init lat 1 0)) (snd (econf_init lat 1 0))
    end.
Proof.
  destruct n as [|[|n]]; [| |reflexivity];
    unfold invertible_after, isInvertible, Reqb, calc_D, M_gap,
           get_electron_pos; simpl.
  - destruct (Req_dec_T 0 0); [reflexivity | lra].
  - destruct (Req_dec_T 1 0); [lra | reflexivity].
Qed.

(** X10 at work: the initial configuration has a singular [D], the first
    resampling an invertible one, and the walker is set up on the latter. *)
Lemma construct_first_invertible_witness :
  construct nat distribute_random econf_init inverse isInvertible lat M_gap v0
            1%nat 5%nat 0%nat
  = Some (mkVMC 2%nat (mkEconf [1%nat])
                (mat_mul 1 M_gap (inverse 1 (calc_D M_gap (mkEconf [1%nat]))))
                (calc_new_T lat v0 (mkEconf [1%nat])) 0%Z 0%Z).
Proof.
  apply (proj1 (construct_first_invertible
                  nat distribute_random econf_init inverse isInvertible
                  lat M_gap v0 1%nat 0%nat 5%nat) 1%nat).
  - lia.
  - exact (M_gap_invertible_after 1).
  - intros i Hi. assert (i = 0%nat) by lia. subst i.
    exact (M_gap_invertible_after 0).
Defined.

(** X11 at work: no equilibration at all. *)
Lemma equilibrate_compose_witness :
  equilibrate nat uniform_real propose_random_hop inverse isInvertible false
              lat M v0 1%nat 1%Z 0 walker0 = Some walker0.
Proof.
  apply (equilibrate_compose
           nat uniform_real propose_random_hop inverse isInvertible false
           lat M v0 1%nat 1%Z 0 0 walker0).
  simpl. lia.
Defined.

(** X12 at work: one sweep of the constructed walker. *)
Lemma mcs_effect_witness :
  exists st',
    mcs nat uniform_real propose_random_hop inverse isInvertible true
        lat M v0 1%nat 1%Z walker0 = Some st' /\
    mctime st' = 1%Z /\ econf_N (econf st') = 1%nat.
Proof.
  destruct (mcs_total nat uniform_real propose_random_hop inverse isInvertible
                      true lat M v0 1%nat 1%Z walker0 eq_refl) as [st' E].
  exists st'. split; [exact E|].
  destruct (mcs_effect nat uniform_real propose_random_hop inverse
                       isInvertible true lat M v0 1%nat 1%Z walker0 st' E)
    as [H1 [_ [_ H4]]].
  split; [exact H1 | exact H4].
Defined.

(** X13 at work: electrons on 0 and 3, numbered either way. *)
Lemma calc_new_T_relabel_witness :
  (forall i, calc_new_T lat v1 (mkEconf [0%nat; 3%nat]) i
             = calc_new_T lat v1 (mkEconf [3%nat; 0%nat]) i) /\
  get_num_dblocc lat (mkEconf [0%nat; 3%nat])
  = get_num_dblocc lat (mkEconf [3%nat; 0%nat]).
Proof.
  apply (calc_new_T_relabel lat v1 (mkEconf [0%nat; 3%nat])
                            (mkEconf [3%nat; 0%nat])).
  apply perm_swap.
Defined.

(** X14 at work: the same two electrons with their numbers exchanged, the
    columns of [W] with them. *)
Lemma E_l_relabel_witness :
  E_l nat false lat v1 [1] 1
      (mkVMC 0%nat (mkEconf [3%nat; 0%nat])
             (fun i c => INR (i + 2 * nth c [1%nat; 0%nat] 0%nat))
             (fun _ => 1) 0%Z 0%Z)
  = E_l nat false lat v1 [1] 1
        (mkVMC 0%nat (mkEconf [0%nat; 3%nat])
               (fun i c => INR (i + 2 * c)) (fun _ => 1) 0%Z 0%Z).
Proof.
  apply (E_l_relabel nat false lat v1 [1] 1 _ _ [1%nat; 0%nat]).
  - apply perm_swap.
  - reflexivity.
  - intros i c _. reflexivity.
  - intros i. reflexivity.
Defined.

(** X15 at work: two distance classes, both with amplitude zero. *)
Lemma E_l_no_hopping_witness :
  E_l nat false lat v1 [0; 0] 3 (walker_at 0 2)
  = Some (3 * INR (get_num_dblocc lat (econf (walker_at 0 2))) / INR (L lat)).
Proof.
  apply (E_l_no_hopping nat false lat v1 [0; 0] 3 (walker_at 0 2)).
  repeat constructor.
Defined.

(** X19 at work: an updated value 0.5% above the recomputed 1 passes the
    check of [W] and fails the check of [T]; one exactly 1% above fails the
    check of [W] too, [1.01f] being below 1.01. *)
Lemma chk_relative_error_witness :
  chk_W (1005 / 1000) 1 = true /\ chk_T (1005 / 1000) 1 = false /\
  chk_W (101 / 100) 1 = false.
Proof.
  assert (Hsum : forall x, 1 <= x -> ~ Rabs x + Rabs 1 < 8589935 / 8589934592).
  { intros x Hx. rewrite Rabs_R1, (Rabs_right x) by lra. lra. }
  split; [|split].
  - apply (chk_relative_error (1005 / 1000) 1). right. split; lra.
  - apply Bool.not_true_is_false. intros H.
    apply (chk_relative_error (1005 / 1000) 1) in H.
    destruct H as [H|[_ H]]; [apply (Hsum (1005 / 1000)) in H; [easy | lra]|].
    lra.
  - apply Bool.not_true_is_false. intros H.
    apply (chk_relative_error (101 / 100) 1) in H.
    destruct H as [H|[_ H]]; [apply (Hsum (101 / 100)) in H; [easy | lra]|].
    lra.
Defined.

End TwoSites.

(** * Builds with and without assertions *)

Section Builds.

Variable RNG : Type.
Variable uniform_real : RNG -> R * RNG.
Variable propose_random_hop :
  ElectronConfiguration -> nat -> RNG -> ElectronHop * RNG.
Variable inverse : nat -> Matrix -> Matrix.
Variable isInvertible : nat -> Matrix -> bool.
Variable lat : Lattice.
Variable M : Matrix.
Variable v : nat -> nat -> R.
Variable update_hop_maxdist : nat.
Variable updates_until_WT_recalc : Z.

Lemma perform_WT_update_without_assertions st hop st' :
  perform_WT_update RNG inverse isInvertible false lat M v
                    updates_until_WT_recalc st hop = Some st' ->
  perform_WT_update RNG inverse isInvertible true lat M v
                    updates_until_WT_recalc st hop = Some st'.
Proof.
  unfold perform_WT_update, calc_new_W.
  destruct (updates_until_WT_recalc <=? updates_since_WT_recalc st)%Z.
  - destruct (isInvertible _ _); cbn; [trivial | discriminate].
  - destruct (isInvertible _ _); cbn; [|discriminate].
    destruct (check_W _ _ _ _); cbn; [|discriminate].
    destruct (check_T _ _ _); cbn; [trivial | discriminate].
Qed.

Lemma accept_hop_without_assertions st hop r :
  accept_hop RNG inverse isInvertible false lat M v updates_until_WT_recalc
             st hop = Some r ->
  accept_hop RNG inverse isInvertible true lat M v updates_until_WT_recalc
             st hop = Some r.
Proof.
  unfold accept_hop. intros H. apply bind_Some in H.
  destruct H as [st1 [H1 H2]].
  now rewrite (perform_WT_update_without_assertions _ _ _ H1).
Qed.

Lemma metstep_without_assertions st r :
  metstep RNG uniform_real propose_random_hop inverse isInvertible false
          lat M v update_hop_maxdist updates_until_WT_recalc st = Some r ->
  metstep RNG uniform_real propose_random_hop inverse isInvertible true
          lat M v update_hop_maxdist updates_until_WT_recalc st = Some r.
Proof.
  rewrite !metstep_unfold. cbv zeta.
  destruct (negb (possible _)); [trivial|].
  destruct (Rgeb _ _); [apply accept_hop_without_assertions|].
  destruct (Rltb _ _); [apply accept_hop_without_assertions | trivial].
Qed.

Lemma metsteps_without_assertions n : forall st st',
  metsteps RNG uniform_real propose_random_hop inverse isInvertible false
           lat M v update_hop_maxdist updates_until_WT_recalc n st = Some st' ->
  metsteps RNG uniform_real propose_random_hop inverse isInvertible true
           lat M v update_hop_maxdist updates_until_WT_recalc n st = Some st'.
Proof.
  induction n as [|n IH]; intros st st' H; simpl in H |- *; [exact H|].
  apply bind_Some in H. destruct H as [r [H1 H2]].
  rewrite (metstep_without_assertions _ _ H1). simpl. now apply IH.
Qed.

Lemma mcs_without_assertions st st' :
  mcs RNG uniform_real propose_random_hop inverse isInvertible false
      lat M v update_hop_maxdist updates_until_WT_recalc st = Some st' ->
  mcs RNG uniform_real propose_random_hop inverse isInvertible true
      lat M v update_hop_maxdist updates_until_WT_recalc st = Some st'.
Proof.
  unfold mcs. intros H. apply bind_Some in H. destruct H as [st1 [H1 H2]].
  now rewrite (metsteps_without_assertions _ _ _ H1).
Qed.

Lemma sweeps_without_assertions n : forall st st',
  sweeps RNG uniform_real propose_random_hop inverse isInvertible false
         lat M v update_hop_maxdist updates_until_WT_recalc n st = Some st' ->
  sweeps RNG uniform_real propose_random_hop inverse isInvertible true
         lat M v update_hop_maxdist updates_until_WT_recalc n st = Some st'.
Proof.
  induction n as [|n IH]; intros st st' H; simpl in H |- *; [exact H|].
  apply bind_Some in H. destruct H as [st1 [H1 H2]].
  rewrite (mcs_without_assertions _ _ H1). simpl. now apply IH.
Qed.

(** X20.  The assertions only stop the walk, they never steer it: whatever
    an update, a Metropolis step, a sweep or an equilibration returns in a
    build with assertions, the build without them returns as well. *)
Theorem assertions_only_abort st :
  (forall hop st',
      perform_WT_update RNG inverse isInvertible false lat M v
                        updates_until_WT_recalc st hop = Some st' ->
      perform_WT_update RNG inverse isInvertible true lat M v
                        updates_until_WT_recalc st hop = Some st') /\
  (forall r,
      metstep RNG uniform_real propose_random_hop inverse isInvertible false
              lat M v update_hop_maxdist updates_until_WT_recalc st = Some r ->
      metstep RNG uniform_real propose_random_hop inverse isInvertible true
              lat M v update_hop_maxdist updates_until_WT_recalc st = Some r)
  /\
  (forall st',
      mcs RNG uniform_real propose_random_hop inverse isInvertible false
          lat M v update_hop_maxdist updates_until_WT_recalc st = Some st' ->
      mcs RNG uniform_real propose_random_hop inverse isInvertible true
          lat M v update_hop_maxdist updates_until_WT_recalc st = Some st') /\
  (forall n st',
      equilibrate RNG uniform_real propose_random_hop inverse isInvertible
                  false lat M v update_hop_maxdist updates_until_WT_recalc
                  n st = Some st' ->
      equilibrate RNG uniform_real propose_random_hop inverse isInvertible
                  true lat M v update_hop_maxdist updates_until_WT_recalc
                  n st = Some st').
Proof.
  split; [|split; [|split]].
  - intros hop st'. apply perform_WT_update_without_assertions.
  - intros r. apply metstep_without_assertions.
  - intros st'. apply mcs_without_assertions.
  - intros n st' H. unfold equilibrate in H |- *.
    apply bind_Some in H. destruct H as [st1 [H1 H2]].
    now rewrite (sweeps_without_assertions _ _ _ H1).
Qed.

End Builds.

(** X20 at work: the accepted hop 0 -> 1 of the constructed walker passes
    the cross-check, and both builds agree on it. *)
Lemma assertions_only_abort_witness :
  exists st',
    perform_WT_update nat TwoSites.inverse TwoSites.isInvertible false
                      TwoSites.lat TwoSites.M TwoSites.v0 1%Z
                      (set_econf nat TwoSites.walker0
                                 (do_hop TwoSites.e0 TwoSites.hop01))
                      TwoSites.hop01 = Some st' /\
    perform_WT_update nat TwoSites.inverse TwoSites.isInvertible true
                      TwoSites.lat TwoSites.M TwoSites.v0 1%Z
                      (set_econf nat TwoSites.walker0
                                 (do_hop TwoSites.e0 TwoSites.hop01))
                      TwoSites.hop01 = Some st'.
Proof.
  destruct (accept_hop_consistent
              nat TwoSites.inverse TwoSites.isInvertible false TwoSites.lat
              TwoSites.M TwoSites.v0 1%Z TwoSites.walker0 TwoSites.hop01
              TwoSites.FullPivLU_exact_1 TwoSites.walker0_consistent
              TwoSites.hop01_acceptable) as [st' [E _]].
  unfold accept_hop in E. apply bind_Some in E. destruct E as [st1 [E1 E2]].
  exists st1. split; [exact E1|].
  exact (proj1 (assertions_only_abort
                  nat TwoSites.uniform_real TwoSites.propose_random_hop
                  TwoSites.inverse TwoSites.isInvertible TwoSites.lat
                  TwoSites.M TwoSites.v0 1%nat 1%Z _) _ _ E1).
Defined.

(** * The spin-spin correlation observable (src/obs_sscorr.cpp) *)

Module ObservableSpinSpinCorrelation.

Section Cache.

(** [ModelManager] with its [s()], and what [ObservableCache] holds beside
    [s] (their headers declare them). *)
Variable ModelManager : Type.
Variable model_s : ModelManager -> Vector.
Variable OtherEntries : Type.

(** The cache: [s] is an optional vector, empty until first asked for. *)
Record ObservableCache := mkCache {
  s : option Vector;
  other_entries : OtherEntries
}.

(** Lines 24-31.  The cast to [double] changes nothing over the reals. *)
Definition get_current (model : ModelManager) (cache : ObservableCache)
  : Vector * ObservableCache :=
  let cache1 :=
    match s cache with
    | None => mkCache (Some (model_s model)) (other_entries cache)
    | Some _ => cache
    end in
  match s cache1 with
  | Some x => (x, cache1)
  | None => (model_s model, cache1)
  end.

(** X16.  [get_current] asks the model once: on an empty cache it returns
    the model's [s()] and stores it; on a filled cache it returns what is
    stored, whatever the model now says, and leaves the cache as it is.  So
    a second call, with any model, repeats the answer of the first, and the
    other entries of the cache are never touched. *)
Theorem get_current_cached model model' cache :
  (s cache = None ->
   get_current model cache =
   (model_s model, mkCache (Some (model_s model)) (other_entries cache))) /\
  (forall x, s cache = Some x -> get_current model cache = (x, cache)) /\
  get_current model' (snd (get_current model cache)) =
  get_current model cache /\
  s (snd (get_current model cache)) = Some (fst (get_current model cache)) /\
  other_entries (snd (get_current model cache)) = other_entries cache.
Proof.
  unfold get_current. destruct cache as [[x|] o]; cbn.
  - repeat split; try discriminate. intros y Hy. now inversion Hy.
  - repeat split; try reflexivity. intros y Hy. discriminate.
Qed.

End Cache.

(** A cache filled from a model that has changed since: the answer is the
    stored one. *)
Lemma get_current_cached_witness :
  get_current nat (fun m _ => INR m) unit 7%nat
              (mkCache unit (Some (fun _ => 3)) tt)
  = (fun _ => 3, mkCache unit (Some (fun _ => 3)) tt).
Proof.
  apply (get_current_cached nat (fun m _ => INR m) unit 7%nat 7%nat
                            (mkCache unit (Some (fun _ => 3)) tt)).
Defined.

End ObservableSpinSpinCorrelation.
